(** * YALF: a shallow embedding of the logging pipeline

    The development follows the headers of the library: [YALF.h] (severity
    scale, filter, format renderer, logger registry and dispatcher) and
    [YALF_DeferredSink.h] (the background-worker decorator); of
    [YALF_PbFileSink.h] only the sink's place in the class hierarchy is
    needed.

    Conventions:
    - [std::unordered_map] is a [gmap].  A search over it is a search over
      [map_to_list] (the result is shown not to depend on the order); where
      the code calls out of a loop over it, the order of the visit is a
      parameter, any enumeration of the elements.
    - a call that may throw or not return has a result that says how it
      ended.
    - [size_t] is a [Z] in [0, 2^64) with the wrap-around written out.
    - [std::string] and [std::string_view] are [string].
    - a [throw] is the left injection of a sum.
    - calls into the C++ standard library whose result depends on data that
      is not part of this repository ([std::format] of a time point,
      [std::vformat] of the caller's arguments) are section variables. *)

From Stdlib Require Import ZArith Ascii String DecimalString.
From stdpp Require Import gmap strings list fin_maps.

Local Open Scope string_scope.
Local Open Scope Z_scope.
Local Open Scope list_scope.

(** ** Severity scale *)

Inductive LogLevel : Type :=
  | Fatal
  | Critical
  | Error
  | Warning
  | Info
  | Debug
  | Noise.

#[global] Instance LogLevel_eq_dec : EqDecision LogLevel.
Proof. solve_decision. Defined.

(** The enumerators carry their declaration rank. *)
Definition LogLevel_rank (l : LogLevel) : Z :=
  match l with
  | Fatal => 0
  | Critical => 1
  | Error => 2
  | Warning => 3
  | Info => 4
  | Debug => 5
  | Noise => 6
  end.

Definition LogLevel_of_rank (z : Z) : option LogLevel :=
  match z with
  | 0 => Some Fatal
  | 1 => Some Critical
  | 2 => Some Error
  | 3 => Some Warning
  | 4 => Some Info
  | 5 => Some Debug
  | 6 => Some Noise
  | _ => None
  end.

#[global] Instance LogLevel_countable : Countable LogLevel :=
  inj_countable LogLevel_rank LogLevel_of_rank
    (fun l =>
       match l as l0 return LogLevel_of_rank (LogLevel_rank l0) = Some l0 with
       | Fatal | Critical | Error | Warning | Info | Debug | Noise => eq_refl
       end).

(** [a <= b] on the enum compares the underlying integers. *)
Definition LogLevel_le (a b : LogLevel) : bool :=
  LogLevel_rank a <=? LogLevel_rank b.

Definition parseLogLevelString (str : string) : option LogLevel :=
  if String.eqb str "Fatal" then Some Fatal
  else if String.eqb str "Critical" then Some Critical
  else if String.eqb str "Error" then Some Error
  else if String.eqb str "Warning" then Some Warning
  else if String.eqb str "Info" then Some Info
  else if String.eqb str "Debug" then Some Debug
  else if String.eqb str "Noise" then Some Noise
  else None.

Definition getLogLevelString (level : LogLevel) : string :=
  match level with
  | Fatal => "Fatal"
  | Critical => "Critical"
  | Error => "Error"
  | Warning => "Warning"
  | Info => "Info"
  | Debug => "Debug"
  | Noise => "Noise"
  end.

(** ** Entry metadata *)

Record source_location : Type := mk_source_location {
  file_name : string;
  function_name : string;
  line : Z;
  column : Z
}.

(** A time point is its tick count in [YALF_TIMESTAMP_RESOLUTION] units. *)
Definition LogEntryTimestamp : Type := Z.

Record EntryMetadata : Type := mkEntryMetadata {
  level : LogLevel;
  domain : string;
  instance : option string;
  src_location : source_location;
  timestamp : LogEntryTimestamp
}.

(** ** Filter *)

Record Filter : Type := mkFilter {
  default_level : LogLevel;
  domains : gmap string LogLevel
}.

(** [Filter() = default] with the member initialiser [default_level = Info]. *)
Definition Filter_new : Filter :=
  {| default_level := Info; domains := ∅ |}.

(** [std::string_view::compare]: negative, zero or positive. *)
Definition string_view_compare (a b : string) : Z :=
  match String.compare a b with
  | Lt => -1
  | Eq => 0
  | Gt => 1
  end.

(** [std::ranges::find_if] over the map's elements, the predicate applied to
    the projection [first]; [None] is the end iterator. *)
Fixpoint find_if_first {V : Type} (pred : string -> bool)
    (elems : list (string * V)) : option (string * V) :=
  match elems with
  | [] => None
  | kv :: rest => if pred kv.1 then Some kv else find_if_first pred rest
  end.

Definition Filter_checkFilter (f : Filter) (entry : EntryMetadata) : bool :=
  let it :=
    find_if_first
      (fun dom => string_view_compare (domain entry) dom =? 0)
      (map_to_list (domains f)) in
  match it with
  | Some kv => LogLevel_le (level entry) kv.2
  | None => LogLevel_le (level entry) (default_level f)
  end.

Definition Filter_setDefaultLogLevel (f : Filter) (lvl : LogLevel) : Filter :=
  {| default_level := lvl; domains := domains f |}.

Definition Filter_setDomainLogLevel (f : Filter) (dom : string)
    (lvl : LogLevel) : Filter :=
  {| default_level := default_level f; domains := <[dom := lvl]> (domains f) |}.

Definition Filter_clearDomainLogLevel (f : Filter) (dom : string) : Filter :=
  {| default_level := default_level f; domains := delete dom (domains f) |}.

(** ** [size_t] and [std::string_view] *)

Definition size_t_modulus : Z := 2 ^ 64.

Definition size_t_add (a b : Z) : Z := (a + b) mod size_t_modulus.
Definition size_t_sub (a b : Z) : Z := (a - b) mod size_t_modulus.

(** [std::string_view::npos] is [size_t(-1)]. *)
Definition npos : Z := size_t_modulus - 1.

Definition sv_size (sv : string) : Z := Z.of_nat (String.length sv).

(** [sv[i]]; reading outside the view is undefined in C++ and is the NUL
    character here. *)
Definition sv_at (sv : string) (i : Z) : ascii :=
  if i <? 0 then "000"%char
  else match String.get (Z.to_nat i) sv with
       | Some c => c
       | None => "000"%char
       end.

Fixpoint string_drop (n : nat) (sv : string) : string :=
  match n, sv with
  | O, _ => sv
  | S n', EmptyString => EmptyString
  | S n', String _ rest => string_drop n' rest
  end.

(** [sv.remove_prefix(n)]. *)
Definition sv_remove_prefix (sv : string) (n : Z) : string :=
  string_drop (Z.to_nat n) sv.

(** [sv.substr(pos, count)]: the count is clipped to what is left. *)
Definition sv_substr (sv : string) (pos count : Z) : string :=
  let rcount := Z.min count (sv_size sv - pos) in
  String.substring (Z.to_nat pos) (Z.to_nat rcount) sv.

Fixpoint find_char_from (ch : ascii) (sv : string) (idx : Z) : Z :=
  match sv with
  | EmptyString => npos
  | String c rest =>
      if Ascii.eqb c ch then idx else find_char_from ch rest (idx + 1)
  end.

(** [sv.find(ch, pos)]. *)
Definition sv_find (sv : string) (ch : ascii) (pos : Z) : Z :=
  if pos <? sv_size sv
  then find_char_from ch (string_drop (Z.to_nat pos) sv) pos
  else npos.

Fixpoint find_last_char_from (ch : ascii) (sv : string) (idx last : Z) : Z :=
  match sv with
  | EmptyString => last
  | String c rest =>
      find_last_char_from ch rest (idx + 1) (if Ascii.eqb c ch then idx else last)
  end.

(** [sv.find_last_of(ch)]. *)
Definition sv_find_last_of (sv : string) (ch : ascii) : Z :=
  find_last_char_from ch sv 0 npos.

(** [out_it = c] on a [std::back_inserter]. *)
Definition push_back (out : string) (c : ascii) : string :=
  out +:+ String c EmptyString.

(** [std::to_string] of an unsigned value. *)
Definition to_string (z : Z) : string :=
  DecimalString.NilZero.string_of_uint (N.to_uint (Z.to_N z)).

Fixpoint spaces (n : nat) : string :=
  match n with
  | O => EmptyString
  | S n' => String " " (spaces n')
  end.

(** [std::format("{: >8}", sv)]: right-justified in a field of width 8,
    filled with spaces, never truncated. *)
Definition format_right8 (sv : string) : string :=
  spaces (8 - String.length sv)%nat +:+ sv.

(** ** Format renderer *)

Section Renderer.

(** [true] when compiled with [_MSC_VER] defined. *)
Variable msvc : bool.

(** [std::format("{:%c}", local_timestamp)] for a conversion character [c];
    it includes the conversion to local time under [YALF_USE_LOCALTIME]. *)
Variable chrono_format : ascii -> LogEntryTimestamp -> string.

Definition truncateFilename (filename : string) : string :=
  let sep := if msvc then "\"%char else "/"%char in
  sv_remove_prefix filename (size_t_add (sv_find_last_of filename sep) 1).

Record FormattedStringSink : Type := mkFormattedStringSink {
  fss_filter : Filter;
  default_fmt : string;
  fmts : gmap LogLevel string
}.

Definition FormattedStringSink_new : FormattedStringSink :=
  {| fss_filter := Filter_new;
     default_fmt := "%H:%M:%S %F:%l %D[%I] %L:  %x%R%n";
     fmts := ∅ |}.

Definition setFormat (f : FormattedStringSink) (fmt : string)
    : FormattedStringSink :=
  {| fss_filter := fss_filter f; default_fmt := fmt; fmts := fmts f |}.

Definition setFormatLevel (f : FormattedStringSink) (lvl : LogLevel)
    (fmt : string) : FormattedStringSink :=
  {| fss_filter := fss_filter f; default_fmt := default_fmt f;
     fmts := <[lvl := fmt]> (fmts f) |}.

Definition clearFormat (f : FormattedStringSink) (lvl : LogLevel)
    : FormattedStringSink :=
  {| fss_filter := fss_filter f; default_fmt := default_fmt f;
     fmts := delete lvl (fmts f) |}.

Definition getFormatString (f : FormattedStringSink) (lvl : LogLevel)
    : string :=
  match fmts f !! lvl with
  | Some fmt => fmt
  | None => default_fmt f
  end.

(** The escape character [\033]. *)
Definition ESC : string := String "027"%char EmptyString.

(** The inner [switch (cc)] of [%C]: what is appended, [None] for
    [default: break]. *)
Definition foreground_code (cc : ascii) : option string :=
  if Ascii.eqb cc "x" then Some (ESC +:+ "[30m")
  else if Ascii.eqb cc "r" then Some (ESC +:+ "[31m")
  else if Ascii.eqb cc "g" then Some (ESC +:+ "[32m")
  else if Ascii.eqb cc "y" then Some (ESC +:+ "[33m")
  else if Ascii.eqb cc "b" then Some (ESC +:+ "[34m")
  else if Ascii.eqb cc "m" then Some (ESC +:+ "[35m")
  else if Ascii.eqb cc "c" then Some (ESC +:+ "[36m")
  else if Ascii.eqb cc "w" then Some (ESC +:+ "[37m")
  else if Ascii.eqb cc "X" then Some (ESC +:+ "[90m")
  else if Ascii.eqb cc "R" then Some (ESC +:+ "[91m")
  else if Ascii.eqb cc "G" then Some (ESC +:+ "[92m")
  else if Ascii.eqb cc "Y" then Some (ESC +:+ "[93m")
  else if Ascii.eqb cc "B" then Some (ESC +:+ "[94m")
  else if Ascii.eqb cc "M" then Some (ESC +:+ "[95m")
  else if Ascii.eqb cc "C" then Some (ESC +:+ "[96m")
  else if Ascii.eqb cc "W" then Some (ESC +:+ "[97m")
  else None.

(** The inner [switch (cc)] of [%Q]. *)
Definition background_code (cc : ascii) : option string :=
  if Ascii.eqb cc "x" then Some (ESC +:+ "[40m")
  else if Ascii.eqb cc "r" then Some (ESC +:+ "[41m")
  else if Ascii.eqb cc "g" then Some (ESC +:+ "[42m")
  else if Ascii.eqb cc "y" then Some (ESC +:+ "[43m")
  else if Ascii.eqb cc "b" then Some (ESC +:+ "[44m")
  else if Ascii.eqb cc "m" then Some (ESC +:+ "[45m")
  else if Ascii.eqb cc "c" then Some (ESC +:+ "[46m")
  else if Ascii.eqb cc "w" then Some (ESC +:+ "[47m")
  else if Ascii.eqb cc "X" then Some (ESC +:+ "[100m")
  else if Ascii.eqb cc "R" then Some (ESC +:+ "[101m")
  else if Ascii.eqb cc "G" then Some (ESC +:+ "[102m")
  else if Ascii.eqb cc "Y" then Some (ESC +:+ "[103m")
  else if Ascii.eqb cc "B" then Some (ESC +:+ "[104m")
  else if Ascii.eqb cc "M" then Some (ESC +:+ "[105m")
  else if Ascii.eqb cc "C" then Some (ESC +:+ "[106m")
  else if Ascii.eqb cc "W" then Some (ESC +:+ "[107m")
  else None.

Definition append_code (out : string) (code : option string) : string :=
  match code with
  | Some c => out +:+ c
  | None => out
  end.

(** The loop variables of [formatEntry]. *)
Record scan : Type := mkScan {
  scan_s : Z;
  scan_out : string
}.

(** A colour directive: the sub-code is read, and [s] stepped over it, only
    when a third character exists. *)
Definition colour_directive (table : ascii -> option string)
    (fmt : string) (st : scan) : scan :=
  if scan_s st <? size_t_sub (sv_size fmt) 2 then
    let cc := sv_at fmt (size_t_add (scan_s st) 2) in
    {| scan_s := size_t_add (scan_s st) 1;
       scan_out := append_code (scan_out st) (table cc) |}
  else st.

(** The [switch (fc)]. *)
Definition directive (fmt : string) (meta : EntryMetadata) (msg : string)
    (fc : ascii) (st : scan) : scan :=
  let emit (text : string) :=
    {| scan_s := scan_s st; scan_out := scan_out st +:+ text |} in
  let chrono := chrono_format fc (timestamp meta) in
  if Ascii.eqb fc "%" then
    {| scan_s := scan_s st; scan_out := push_back (scan_out st) "%" |}
  else if Ascii.eqb fc "n" then
    let out1 :=
      if msvc then push_back (scan_out st) "013" else scan_out st in
    {| scan_s := scan_s st; scan_out := push_back out1 "010" |}
  else if Ascii.eqb fc "y" then emit chrono
  else if Ascii.eqb fc "Y" then emit chrono
  else if Ascii.eqb fc "b" then emit chrono
  else if Ascii.eqb fc "B" then emit chrono
  else if Ascii.eqb fc "m" then emit chrono
  else if Ascii.eqb fc "d" then emit chrono
  else if Ascii.eqb fc "e" then emit chrono
  else if Ascii.eqb fc "a" then emit chrono
  else if Ascii.eqb fc "A" then emit chrono
  else if Ascii.eqb fc "H" then emit chrono
  else if Ascii.eqb fc "M" then emit chrono
  else if Ascii.eqb fc "S" then emit chrono
  else if Ascii.eqb fc "F" then
    emit (truncateFilename (file_name (src_location meta)))
  else if Ascii.eqb fc "f" then emit (function_name (src_location meta))
  else if Ascii.eqb fc "l" then emit (to_string (line (src_location meta)))
  else if Ascii.eqb fc "c" then emit (to_string (column (src_location meta)))
  else if Ascii.eqb fc "D" then emit (domain meta)
  else if Ascii.eqb fc "I" then emit (default "" (instance meta))
  else if Ascii.eqb fc "L" then
    emit (format_right8 (getLogLevelString (level meta)))
  else if Ascii.eqb fc "x" then emit msg
  else if Ascii.eqb fc "R" then emit (ESC +:+ "[0m")
  else if Ascii.eqb fc "C" then colour_directive foreground_code fmt st
  else if Ascii.eqb fc "Q" then colour_directive background_code fmt st
  else st.

(** One pass through the body of [while (s < fmt.size())].  The last
    branch is the source's missing [else]: at a ['%'] in the last position
    neither arm runs and the variables are left as they are. *)
Definition formatEntry_body (fmt : string) (meta : EntryMetadata)
    (msg : string) (st : scan) : scan :=
  let s := scan_s st in
  if negb (Ascii.eqb (sv_at fmt s) "%") then
    let p := sv_find fmt "%" s in
    if p =? npos then
      {| scan_s := sv_size fmt;
         scan_out := scan_out st +:+ sv_substr fmt s npos |}
    else
      {| scan_s := size_t_add s (size_t_sub p s);
         scan_out := scan_out st +:+ sv_substr fmt s (size_t_sub p s) |}
  else if s <? size_t_sub (sv_size fmt) 1 then
    let fc := sv_at fmt (size_t_add s 1) in
    let st1 := directive fmt meta msg fc st in
    {| scan_s := size_t_add (scan_s st1) 2; scan_out := scan_out st1 |}
  else st.

(** The [while] loop, run for at most [fuel] passes; [None] when the fuel
    is used up with the loop condition still true. *)
Fixpoint formatEntry_loop (fuel : nat) (fmt : string) (meta : EntryMetadata)
    (msg : string) (st : scan) : option string :=
  if scan_s st <? sv_size fmt then
    match fuel with
    | O => None
    | S fuel' =>
        formatEntry_loop fuel' fmt meta msg (formatEntry_body fmt meta msg st)
    end
  else Some (scan_out st).

(** [formatEntry] returns [out] when the loop leaves after some number of
    passes, and does not return when it never leaves. *)
Definition formatEntry_returns (f : FormattedStringSink)
    (meta : EntryMetadata) (msg out : string) : Prop :=
  ∃ fuel,
    formatEntry_loop fuel (getFormatString f (level meta)) meta msg
      {| scan_s := 0; scan_out := "" |} = Some out.

Definition formatEntry_diverges (f : FormattedStringSink)
    (meta : EntryMetadata) (msg : string) : Prop :=
  ∀ fuel,
    formatEntry_loop fuel (getFormatString f (level meta)) meta msg
      {| scan_s := 0; scan_out := "" |} = None.

(** The executable form: a pass that moves [s] moves it forward, so one
    pass per character, and one more, is all a returning call can use
    ([formatEntry_fuel_enough] below). *)
Definition formatEntry (f : FormattedStringSink) (meta : EntryMetadata)
    (msg : string) : option string :=
  let fmt := getFormatString f (level meta) in
  formatEntry_loop (S (String.length fmt)) fmt meta msg
    {| scan_s := 0; scan_out := "" |}.

End Renderer.

(** ** Sinks

    The concrete classes derived from [Sink].  Each carries the [Filter]
    base sub-object; the two text sinks carry it inside their
    [FormattedStringSink] base.  The streams they write to are not part of
    the value. *)

Inductive Sink : Type :=
  | ConsoleSink (base : FormattedStringSink)
  | FileSink (base : FormattedStringSink) (filename : string)
  | ProtobufFileSink (base : Filter) (filename : string)
  | DeferredSink (base : Filter) (underlying : Sink).

Definition makeConsoleSink : Sink := ConsoleSink FormattedStringSink_new.

Definition makeFileSink (filename : string) : Sink :=
  FileSink FormattedStringSink_new filename.

Definition makePbFileSink (filename : string) : Sink :=
  ProtobufFileSink Filter_new filename.

(** The constructor of [DeferredSink] takes ownership of the wrapped sink. *)
Definition makeDeferredSink (underlying : Sink) : Sink :=
  DeferredSink Filter_new underlying.

(** The virtual [checkFilter]: inherited from [Filter] by every sink but
    [DeferredSink], whose override forwards to the wrapped sink. *)
Fixpoint checkFilter (s : Sink) (entry : EntryMetadata) : bool :=
  match s with
  | ConsoleSink base => Filter_checkFilter (fss_filter base) entry
  | FileSink base _ => Filter_checkFilter (fss_filter base) entry
  | ProtobufFileSink base _ => Filter_checkFilter base entry
  | DeferredSink _ underlying => checkFilter underlying entry
  end.

Definition with_filter (base : FormattedStringSink) (f : Filter)
    : FormattedStringSink :=
  {| fss_filter := f; default_fmt := default_fmt base; fmts := fmts base |}.

Fixpoint setDefaultLogLevel (s : Sink) (lvl : LogLevel) : Sink :=
  match s with
  | ConsoleSink base =>
      ConsoleSink
        (with_filter base (Filter_setDefaultLogLevel (fss_filter base) lvl))
  | FileSink base fn =>
      FileSink
        (with_filter base (Filter_setDefaultLogLevel (fss_filter base) lvl)) fn
  | ProtobufFileSink base fn =>
      ProtobufFileSink (Filter_setDefaultLogLevel base lvl) fn
  | DeferredSink base underlying =>
      DeferredSink base (setDefaultLogLevel underlying lvl)
  end.

Fixpoint setDomainLogLevel (s : Sink) (dom : string) (lvl : LogLevel) : Sink :=
  match s with
  | ConsoleSink base =>
      ConsoleSink
        (with_filter base (Filter_setDomainLogLevel (fss_filter base) dom lvl))
  | FileSink base fn =>
      FileSink
        (with_filter base (Filter_setDomainLogLevel (fss_filter base) dom lvl))
        fn
  | ProtobufFileSink base fn =>
      ProtobufFileSink (Filter_setDomainLogLevel base dom lvl) fn
  | DeferredSink base underlying =>
      DeferredSink base (setDomainLogLevel underlying dom lvl)
  end.

Fixpoint clearDomainLogLevel (s : Sink) (dom : string) : Sink :=
  match s with
  | ConsoleSink base =>
      ConsoleSink
        (with_filter base (Filter_clearDomainLogLevel (fss_filter base) dom))
  | FileSink base fn =>
      FileSink
        (with_filter base (Filter_clearDomainLogLevel (fss_filter base) dom)) fn
  | ProtobufFileSink base fn =>
      ProtobufFileSink (Filter_clearDomainLogLevel base dom) fn
  | DeferredSink base underlying =>
      DeferredSink base (clearDomainLogLevel underlying dom)
  end.

(** ** Logger: the registry *)

Inductive exception : Type :=
  | runtime_error (what : string).

Record Logger : Type := mkLogger {
  sinks : gmap string Sink
}.

Definition Logger_new : Logger := {| sinks := ∅ |}.

(** [std::unordered_map::emplace]: the element is inserted only if the
    container has no element with that key; otherwise the container is left
    as it is (and the argument is destroyed). *)
Definition unordered_map_emplace {V : Type} (m : gmap string V)
    (key : string) (value : V) : gmap string V :=
  match m !! key with
  | Some _ => m
  | None => <[key := value]> m
  end.

Definition addSink (l : Logger) (name : string) (sink : Sink) : Logger :=
  {| sinks := unordered_map_emplace (sinks l) name sink |}.

Definition getSink (l : Logger) (name : string) : exception + Sink :=
  match sinks l !! name with
  | Some sink => inr sink
  | None => inl (runtime_error ("Failed to find sink " +:+ name))
  end.

Definition removeSink (l : Logger) (name : string) : Logger :=
  {| sinks := delete name (sinks l) |}.

(** ** Logger: the dispatcher *)

(** The order in which a range-for visits a [std::unordered_map]: every
    element once, in an order the container chooses.  [dolog] runs both its
    loops over the same, unmodified map, so both see the same order. *)
Record unordered_map_order : Type := mk_unordered_map_order {
  iterate : gmap string Sink -> list (string * Sink);
  iterate_elements : forall m, iterate m ≡ₚ map_to_list m
}.

(** How a call of the virtual [Sink::log] ends: it returns, an exception
    leaves it, or it does not return. *)
Inductive log_outcome : Type :=
  | LogReturns
  | LogThrows (e : exception)
  | LogNeverReturns.

Section Dispatcher.

Variable msvc : bool.
Variable chrono_format : ascii -> LogEntryTimestamp -> string.

(** The state of a file's output stream at the call: [Some e] when the
    write raises [e] (the file sinks enable [failbit | badbit] exceptions,
    and [std::ios_base::failure] is a [std::runtime_error]); the argument is
    the file's name. *)
Variable stream_failure : string -> option exception.

Variable order : unordered_map_order.

(** [std::format_args] and [std::vformat]. *)
Variable format_args : Type.
Variable vformat : string -> format_args -> string.

(** The overrides of [Sink::log].  The text sinks format first, and
    [formatEntry] may not return; [std::cout] raises nothing, a file stream
    may; the deferred sink only queues a copy. *)
Definition Sink_log (s : Sink) (meta : EntryMetadata) (msg : string)
    : log_outcome :=
  match s with
  | ConsoleSink base =>
      match formatEntry msvc chrono_format base meta msg with
      | Some _ => LogReturns
      | None => LogNeverReturns
      end
  | FileSink base filename =>
      match formatEntry msvc chrono_format base meta msg with
      | Some _ =>
          match stream_failure filename with
          | Some e => LogThrows e
          | None => LogReturns
          end
      | None => LogNeverReturns
      end
  | ProtobufFileSink _ filename =>
      match stream_failure filename with
      | Some e => LogThrows e
      | None => LogReturns
      end
  | DeferredSink _ _ => LogReturns
  end.

(** What a call of [dolog] does, in order: the expansion of the template
    and the calls of the virtual [Sink::log], each with its receiver (the
    registry entry it is stored under), its metadata and its message. *)
Inductive Event : Type :=
  | EvVformat (fmt : string) (args : format_args)
  | EvSinkLog (name : string) (receiver : Sink) (meta : EntryMetadata)
      (msg : string).

(** The first loop, inside the lambda: leaves with [true] at the first
    sink whose filter accepts. *)
Fixpoint dolog_passed (elems : list (string * Sink)) (meta : EntryMetadata)
    : bool :=
  match elems with
  | [] => false
  | kv :: rest =>
      if checkFilter kv.2 meta then true else dolog_passed rest meta
  end.

(** The second loop.  Nothing catches: the loop goes on to the next sink
    only when the call of [log] has returned, and ends the way that call
    ended otherwise. *)
Fixpoint dolog_deliver (elems : list (string * Sink)) (meta : EntryMetadata)
    (msg : string) : list Event * log_outcome :=
  match elems with
  | [] => ([], LogReturns)
  | kv :: rest =>
      if checkFilter kv.2 meta then
        match Sink_log kv.2 meta msg with
        | LogReturns =>
            let later := dolog_deliver rest meta msg in
            (EvSinkLog kv.1 kv.2 meta msg :: later.1, later.2)
        | ended => ([EvSinkLog kv.1 kv.2 meta msg], ended)
        end
      else dolog_deliver rest meta msg
  end.

(** [now] is the reading of [std::chrono::system_clock::now()], already
    cast to the entry's resolution.  The result is what the call did and how
    it ended. *)
Definition dolog (l : Logger) (now : LogEntryTimestamp) (lvl : LogLevel)
    (dom : string) (inst : option string) (loc : source_location)
    (fmt : string) (args : format_args) : list Event * log_outcome :=
  let meta :=
    {| level := lvl; domain := dom; instance := inst;
       src_location := loc; timestamp := now |} in
  let passed := dolog_passed (iterate order (sinks l)) meta in
  if passed then
    let msg := vformat fmt args in
    let delivered := dolog_deliver (iterate order (sinks l)) meta msg in
    (EvVformat fmt args :: delivered.1, delivered.2)
  else ([], LogReturns).

(** The two string-domain overloads of [log]. *)
Definition log (l : Logger) (now : LogEntryTimestamp) (lvl : LogLevel)
    (dom : string) (loc : source_location) (fmt : string)
    (args : format_args) : list Event * log_outcome :=
  dolog l now lvl dom None loc fmt args.

Definition log_instance (l : Logger) (now : LogEntryTimestamp)
    (lvl : LogLevel) (dom inst : string) (loc : source_location)
    (fmt : string) (args : format_args) : list Event * log_outcome :=
  dolog l now lvl dom (Some inst) loc fmt args.

Definition is_vformat (e : Event) : bool :=
  match e with
  | EvVformat _ _ => true
  | EvSinkLog _ _ _ _ => false
  end.

(** The number of template expansions in a trace. *)
Definition count_vformat (tr : list Event) : nat :=
  length (filter (fun e => is_vformat e = true) tr).

End Dispatcher.

(** ** Deferred sink: the owner thread and the worker thread

    The threads are interleaved by a scheduler.  A step is one access to the
    shared state ([stop_requested], [mtx], [cv], [queue]) or one call of the
    wrapped sink; a thread that cannot move (a taken mutex, a sleeping
    worker, a [join] on a running worker) has no step. *)

Module Deferred.

Record DeferredLogEntry : Type := mkDeferredLogEntry {
  dle_level : LogLevel;
  dle_domain : string;
  dle_instance : option string;
  dle_source_location : source_location;
  dle_timestamp : LogEntryTimestamp;
  dle_message : string
}.

(** The entry built at the head of [DeferredSink::log]. *)
Definition make_entry (meta : EntryMetadata) (msg : string)
    : DeferredLogEntry :=
  {| dle_level := level meta;
     dle_domain := domain meta;
     dle_instance :=
       match instance meta with
       | Some i => Some i
       | None => None
       end;
     dle_source_location := src_location meta;
     dle_timestamp := timestamp meta;
     dle_message := msg |}.

(** The metadata rebuilt by the worker. *)
Definition entry_meta (entry : DeferredLogEntry) : EntryMetadata :=
  {| level := dle_level entry;
     domain := dle_domain entry;
     instance :=
       match dle_instance entry with
       | Some i => Some i
       | None => None
       end;
     src_location := dle_source_location entry;
     timestamp := dle_timestamp entry |}.

Inductive thread : Type :=
  | Owner
  | Worker.

(** Where the worker stands in [doBackgroundWork]. *)
Inductive worker_pc : Type :=
  | W_outer_test   (* while (!this->stop_requested) *)
  | W_lock         (* std::unique_lock lg {this->mtx} *)
  | W_wait_test    (* cv.wait: the predicate, with the lock held *)
  | W_wait_block   (* cv.wait: predicate false, about to release and sleep *)
  | W_sleeping     (* cv.wait: asleep, lock released *)
  | W_wakeup       (* cv.wait: woken, takes the lock again *)
  | W_inner_test   (* while (!this->queue.empty()) *)
  | W_unlock       (* queue.front(); lg.unlock() *)
  | W_deliver      (* this->underlying->log(meta, entry.message) *)
  | W_relock       (* lg.lock() *)
  | W_pop          (* this->queue.pop() *)
  | W_exited.

(** Where the owner stands: between two calls, inside [log], or inside
    the destructor. *)
Inductive owner_pc : Type :=
  | O_next
  | O_push (dle : DeferredLogEntry)   (* lock held: queue.push *)
  | O_unlock                          (* end of the lock_guard's scope *)
  | O_notify                          (* cv.notify_one() in log *)
  | O_notify_stop                     (* cv.notify_one() in the destructor *)
  | O_join                            (* worker.join() *)
  | O_destroyed.

Record state : Type := mkState {
  stop_requested : bool;
  mtx : option thread;
  queue : list DeferredLogEntry;
  wpc : worker_pc;
  opc : owner_pc;
  (** the calls of [log] the owner has still to make, then it destroys *)
  todo : list (EntryMetadata * string);
  (** the calls of [log] the wrapped sink has received, oldest first *)
  underlying_log : list (EntryMetadata * string)
}.

(** After the constructor: the worker thread exists and has not run. *)
Definition init (calls : list (EntryMetadata * string)) : state :=
  {| stop_requested := false; mtx := None; queue := [];
     wpc := W_outer_test; opc := O_next; todo := calls;
     underlying_log := [] |}.

Definition set_wpc (st : state) (pc : worker_pc) : state :=
  {| stop_requested := stop_requested st; mtx := mtx st; queue := queue st;
     wpc := pc; opc := opc st; todo := todo st;
     underlying_log := underlying_log st |}.

Definition set_opc (st : state) (pc : owner_pc) : state :=
  {| stop_requested := stop_requested st; mtx := mtx st; queue := queue st;
     wpc := wpc st; opc := pc; todo := todo st;
     underlying_log := underlying_log st |}.

Definition set_mtx (st : state) (m : option thread) : state :=
  {| stop_requested := stop_requested st; mtx := m; queue := queue st;
     wpc := wpc st; opc := opc st; todo := todo st;
     underlying_log := underlying_log st |}.

Definition set_queue (st : state) (q : list DeferredLogEntry) : state :=
  {| stop_requested := stop_requested st; mtx := mtx st; queue := q;
     wpc := wpc st; opc := opc st; todo := todo st;
     underlying_log := underlying_log st |}.

(** [mtx.lock()] by thread [t]: possible only on a free mutex. *)
Definition lock (t : thread) (st : state) : option state :=
  match mtx st with
  | None => Some (set_mtx st (Some t))
  | Some _ => None
  end.

Definition unlock (st : state) : state := set_mtx st None.

(** [cv.notify_one()]: wakes the worker if it sleeps, else does nothing. *)
Definition notify_one (st : state) : state :=
  match wpc st with
  | W_sleeping => set_wpc st W_wakeup
  | _ => st
  end.

Definition is_empty {A : Type} (l : list A) : bool :=
  match l with
  | [] => true
  | _ :: _ => false
  end.

Definition worker_step (st : state) : option state :=
  match wpc st with
  | W_outer_test =>
      Some (set_wpc st (if stop_requested st then W_exited else W_lock))
  | W_lock =>
      st' ← lock Worker st; Some (set_wpc st' W_wait_test)
  | W_wait_test =>
      if stop_requested st || negb (is_empty (queue st))
      then Some (set_wpc st W_inner_test)
      else Some (set_wpc st W_wait_block)
  | W_wait_block => Some (set_wpc (unlock st) W_sleeping)
  | W_sleeping => None
  | W_wakeup =>
      st' ← lock Worker st; Some (set_wpc st' W_wait_test)
  | W_inner_test =>
      if is_empty (queue st)
      then Some (set_wpc (unlock st) W_outer_test)
      else Some (set_wpc st W_unlock)
  | W_unlock => Some (set_wpc (unlock st) W_deliver)
  | W_deliver =>
      match queue st with
      | entry :: _ =>
          Some
            {| stop_requested := stop_requested st; mtx := mtx st;
               queue := queue st; wpc := W_relock; opc := opc st;
               todo := todo st;
               underlying_log :=
                 underlying_log st ++ [(entry_meta entry, dle_message entry)]
            |}
      | [] => None
      end
  | W_relock =>
      st' ← lock Worker st; Some (set_wpc st' W_pop)
  | W_pop => Some (set_wpc (set_queue st (tail (queue st))) W_inner_test)
  | W_exited => None
  end.

Definition owner_step (st : state) : option state :=
  match opc st with
  | O_next =>
      match todo st with
      | (meta, msg) :: rest =>
          st' ← lock Owner st;
          Some
            {| stop_requested := stop_requested st'; mtx := mtx st';
               queue := queue st'; wpc := wpc st';
               opc := O_push (make_entry meta msg); todo := rest;
               underlying_log := underlying_log st' |}
      | [] =>
          Some
            {| stop_requested := true; mtx := mtx st; queue := queue st;
               wpc := wpc st; opc := O_notify_stop; todo := todo st;
               underlying_log := underlying_log st |}
      end
  | O_push dle => Some (set_opc (set_queue st (queue st ++ [dle])) O_unlock)
  | O_unlock => Some (set_opc (unlock st) O_notify)
  | O_notify => Some (set_opc (notify_one st) O_next)
  | O_notify_stop => Some (set_opc (notify_one st) O_join)
  | O_join =>
      match wpc st with
      | W_exited => Some (set_opc st O_destroyed)
      | _ => None
      end
  | O_destroyed => None
  end.

(** A scheduler's choice: let a thread make its next step, or wake the
    sleeping worker for no reason (a condition variable may). *)
Inductive choice : Type :=
  | Run (t : thread)
  | Spurious.

Definition step (c : choice) (st : state) : option state :=
  match c with
  | Run Owner => owner_step st
  | Run Worker => worker_step st
  | Spurious =>
      match wpc st with
      | W_sleeping => Some (set_wpc st W_wakeup)
      | _ => None
      end
  end.

Fixpoint run (sched : list choice) (st : state) : option state :=
  match sched with
  | [] => Some st
  | c :: rest => st' ← step c st; run rest st'
  end.

(** The destructor has returned. *)
Definition destroyed (st : state) : Prop := opc st = O_destroyed.

End Deferred.

(** ** Vocabulary of the statements *)

(** The same entry at another severity. *)
Definition with_level (entry : EntryMetadata) (lvl : LogLevel)
    : EntryMetadata :=
  {| level := lvl; domain := domain entry; instance := instance entry;
     src_location := src_location entry; timestamp := timestamp entry |}.

(** The severities at or above [Info]. *)
Definition at_least_Info (lvl : LogLevel) : bool :=
  match lvl with
  | Fatal | Critical | Error | Warning | Info => true
  | Debug | Noise => false
  end.

(** The case labels of the [switch (fc)] in [formatEntry]. *)
Definition directive_characters : list ascii :=
  list_ascii_of_string "%nyYbBmdeaAHMSFflcDILxRCQ".

Definition is_directive (c : ascii) : bool :=
  existsb (Ascii.eqb c) directive_characters.

(** ** Sample data for the worked instances *)

(** A small stand-in for [std::vformat]: each [{}] is replaced by the next
    argument, already converted to text. *)
Fixpoint sample_vformat (fmt : string) (args : list string) : string :=
  match fmt with
  | EmptyString => EmptyString
  | String c rest =>
      match rest with
      | String c' rest' =>
          if Ascii.eqb c "{" && Ascii.eqb c' "}" then
            match args with
            | a :: args' => a +:+ sample_vformat rest' args'
            | [] => sample_vformat rest' []
            end
          else String c (sample_vformat rest args)
      | EmptyString => String c EmptyString
      end
  end.

(** Every conversion character rendered as itself between angle brackets. *)
Definition sample_chrono_format (c : ascii) (t : LogEntryTimestamp) : string :=
  "<" +:+ String c ">".

Definition sample_location : source_location :=
  mk_source_location "/src/net/socket.cpp" "connect" 42 7.

Definition sample_meta (lvl : LogLevel) : EntryMetadata :=
  mkEntryMetadata lvl "net" None sample_location 1700000000000000.

(** A logger with a console sink at the default threshold and a file sink
    that lets everything through. *)
Definition sample_logger : Logger :=
  addSink
    (addSink Logger_new "console" makeConsoleSink)
    "trace" (setDefaultLogLevel (makeFileSink "trace.log") Noise).

(** ** Schedules and bookkeeping for the deferred sink *)

(** The owner makes all its [k] calls of [log] (four steps each), requests
    the stop and notifies (two steps) before the worker thread makes its
    first step; the worker then runs, and the owner joins it. *)
Definition early_destroy_schedule (k : nat) : list Deferred.choice :=
  repeat (Deferred.Run Deferred.Owner) (4 * k + 2)
  ++ [Deferred.Run Deferred.Worker; Deferred.Run Deferred.Owner].

(** The call of the wrapped sink's [log] that an entry turns into. *)
Definition call_of (entry : Deferred.DeferredLogEntry)
    : EntryMetadata * string :=
  (Deferred.entry_meta entry, Deferred.dle_message entry).

(** The queued entries not yet handed to the wrapped sink: between the
    delivery of the front entry and its [pop] the front entry is no longer
    one of them. *)
Definition pending (st : Deferred.state) : list Deferred.DeferredLogEntry :=
  match Deferred.wpc st with
  | Deferred.W_relock | Deferred.W_pop => tail (Deferred.queue st)
  | _ => Deferred.queue st
  end.

(** The call the owner is in the middle of. *)
Definition in_flight (st : Deferred.state) : list (EntryMetadata * string) :=
  match Deferred.opc st with
  | Deferred.O_push dle => [call_of dle]
  | _ => []
  end.

(** Every call the owner was given is in exactly one place: received by the
    wrapped sink, pending in the queue, being pushed, or still to make; and
    these places are in the order of the calls. *)
Definition accounted (calls : list (EntryMetadata * string))
    (st : Deferred.state) : Prop :=
  calls
  = Deferred.underlying_log st ++ (call_of <$> pending st) ++ in_flight st
    ++ Deferred.todo st
  ∧ match Deferred.wpc st with
    | Deferred.W_relock | Deferred.W_pop => Deferred.queue st ≠ []
    | _ => True
    end.

(** ** Protobuf sink: level and timestamp of the encoded entry

    [encodeDto] fills a generated protobuf message; the message type is not
    part of these headers.  The fields computed from the metadata's level and
    time point are plain arithmetic and are given here. *)

(** Ticks per second of [LogEntryTimestampResolution] ([std::micro]). *)
Definition ticks_per_second : Z := 1000000.

(** [static_cast<DTO::LogLevel>(meta.level)]. *)
Definition encodeDto_level (meta : EntryMetadata) : Z :=
  LogLevel_rank (level meta).

(** [time_point_cast<seconds>(meta.timestamp).time_since_epoch().count()]:
    the cast truncates toward zero. *)
Definition encodeDto_seconds (meta : EntryMetadata) : Z :=
  Z.quot (timestamp meta) ticks_per_second.

(** [nanoseconds ns = meta.timestamp - tp_sec; ns.count()]: the difference is
    taken in ticks and converted to nanoseconds. *)
Definition encodeDto_nanos (meta : EntryMetadata) : Z :=
  (timestamp meta - encodeDto_seconds meta * ticks_per_second)
  * (1000000000 / ticks_per_second).

(** ** Further vocabulary *)

(** The [Filter] a sink's control-plane calls and [checkFilter] act on: its
    own base, or for a deferred sink the wrapped sink's. *)
Fixpoint effective_filter (s : Sink) : Filter :=
  match s with
  | ConsoleSink base => fss_filter base
  | FileSink base _ => fss_filter base
  | ProtobufFileSink base _ => base
  | DeferredSink _ underlying => effective_filter underlying
  end.

Fixpoint has_char (c : ascii) (sv : string) : bool :=
  match sv with
  | EmptyString => false
  | String c' rest => Ascii.eqb c' c || has_char c rest
  end.

Fixpoint last_char (sv : string) : option ascii :=
  match sv with
  | EmptyString => None
  | String c EmptyString => Some c
  | String _ rest => last_char rest
  end.

(** The separator [truncateFilename] looks for. *)
Definition path_separator (msvc : bool) : ascii :=
  if msvc then "\"%char else "/"%char.

(** The worker first goes to sleep on the empty queue; then, for each call,
    the owner runs [log] to its end and the worker wakes, delivers, pops and
    goes back to sleep; last the owner requests the stop, the worker wakes
    and leaves, and the owner joins it. *)
Definition worker_to_sleep : list Deferred.choice :=
  repeat (Deferred.Run Deferred.Worker) 4.





(** The worker has found the queue empty and no stop requested, and is
    about to sleep; the owner then runs the destructor up to [join]; the
    worker goes to sleep. *)
Definition lost_wakeup_schedule : list Deferred.choice :=
  repeat (Deferred.Run Deferred.Worker) 3
  ++ repeat (Deferred.Run Deferred.Owner) 2
  ++ [Deferred.Run Deferred.Worker].

(** Who holds the mutex, read off the two program counters. *)
Definition worker_holds_lock (pc : Deferred.worker_pc) : bool :=
  match pc with
  | Deferred.W_wait_test | Deferred.W_wait_block | Deferred.W_inner_test
  | Deferred.W_unlock | Deferred.W_pop => true
  | _ => false
  end.

Definition owner_holds_lock (pc : Deferred.owner_pc) : bool :=
  match pc with
  | Deferred.O_push _ | Deferred.O_unlock => true
  | _ => false
  end.

Definition lock_discipline (st : Deferred.state) : Prop :=
  Deferred.mtx st
  = if worker_holds_lock (Deferred.wpc st) then Some Deferred.Worker
    else if owner_holds_lock (Deferred.opc st) then Some Deferred.Owner
    else None.

(** The discipline, together with mutual exclusion. *)
Definition lock_invariant (st : Deferred.state) : Prop :=
  lock_discipline st
  ∧ worker_holds_lock (Deferred.wpc st) && owner_holds_lock (Deferred.opc st)
    = false.

(** The owner is inside the destructor. *)
Definition in_destructor (pc : Deferred.owner_pc) : bool :=
  match pc with
  | Deferred.O_notify_stop | Deferred.O_join | Deferred.O_destroyed => true
  | _ => false
  end.

(** [stop_requested] is set exactly from the destructor's first statement
    on, the destructor runs after the last call of [log], the worker leaves
    only on a stop, and the destructor returns only after the worker has
    left. *)
Definition shutdown_order (st : Deferred.state) : Prop :=
  Deferred.stop_requested st = in_destructor (Deferred.opc st)
  ∧ (in_destructor (Deferred.opc st) = true → Deferred.todo st = [])
  ∧ (Deferred.wpc st = Deferred.W_exited →
     Deferred.stop_requested st = true)
  ∧ (Deferred.opc st = Deferred.O_destroyed →
     Deferred.wpc st = Deferred.W_exited).

(** One call of [log], and the state the early-destroy schedule leaves it
    in: the destructor has returned, the entry is still queued. *)
Definition sample_call : EntryMetadata * string :=
  (sample_meta Info, "started").

Definition sample_dropped_state : Deferred.state :=
  Deferred.mkState true None
    [Deferred.make_entry (sample_meta Info) "started"]
    Deferred.W_exited Deferred.O_destroyed [] [].

(** ** Vocabulary and sample data for the dispatcher *)

(** The registered sinks whose filter accepts, in the order of a visit. *)
Definition accepting (elems : list (string * Sink)) (meta : EntryMetadata)
    : list (string * Sink) :=
  filter (fun kv => checkFilter kv.2 meta = true) elems.

(** Two orders of iteration: by key as [map_to_list] gives it, and the
    reverse of that. *)
Definition key_order : unordered_map_order :=
  {| iterate := fun m => map_to_list m;
     iterate_elements := fun m => reflexivity (map_to_list m) |}.

Definition reverse_key_order : unordered_map_order :=
  {| iterate := fun m => reverse (map_to_list m);
     iterate_elements := fun m => reverse_Permutation (map_to_list m) |}.

(** Every stream is in good state; and a full disk, where every write to a
    file raises. *)
Definition streams_good (filename : string) : option exception := None.

Definition disk_full (filename : string) : option exception :=
  Some (runtime_error "basic_ios::clear: iostream error").

(** A logger with two file sinks, both at the default threshold. *)
Definition two_files_logger : Logger :=
  addSink
    (addSink Logger_new "audit" (makeFileSink "audit.log"))
    "trace" (makeFileSink "trace.log").

(** The owner has made the first of two calls and stands before the second;
    the worker, woken, is inside the wrapped sink's [log] with the first
    entry, the mutex released. *)
Definition delivering_schedule : list Deferred.choice :=
  worker_to_sleep
  ++ repeat (Deferred.Run Deferred.Owner) 4
  ++ repeat (Deferred.Run Deferred.Worker) 4.

Definition sample_delivering_state : Deferred.state :=
  Deferred.mkState false None
    [Deferred.make_entry (sample_meta Info) "started"]
    Deferred.W_deliver Deferred.O_next [(sample_meta Warning, "disk low")] [].

(** * Properties *)

(** ** Severity names *)

Lemma parseLogLevelString_Some_inv (str : string) (l : LogLevel) :
  parseLogLevelString str = Some l → str = getLogLevelString l.
Proof.
  unfold parseLogLevelString.
  destruct (String.eqb_spec str "Fatal") as [-> | _]; [by intros [= <-] |].
  destruct (String.eqb_spec str "Critical") as [-> | _]; [by intros [= <-] |].
  destruct (String.eqb_spec str "Error") as [-> | _]; [by intros [= <-] |].
  destruct (String.eqb_spec str "Warning") as [-> | _]; [by intros [= <-] |].
  destruct (String.eqb_spec str "Info") as [-> | _]; [by intros [= <-] |].
  destruct (String.eqb_spec str "Debug") as [-> | _]; [by intros [= <-] |].
  destruct (String.eqb_spec str "Noise") as [-> | _]; [by intros [= <-] |].
  discriminate.
Qed.

(** C10: the level names round-trip through [parseLogLevelString], a string
    that parses to a level is that level's name, and a string that is none of
    the seven names parses to no value. *)
Theorem parseLogLevelString_roundtrip (l : LogLevel) (str : string) :
  parseLogLevelString (getLogLevelString l) = Some l
  ∧ (parseLogLevelString str = Some l → str = getLogLevelString l)
  ∧ ((∀ l', str ≠ getLogLevelString l') → parseLogLevelString str = None).
Proof.
  split; [by destruct l |].
  split; [apply parseLogLevelString_Some_inv |].
  intros Hnone.
  destruct (parseLogLevelString str) as [l' |] eqn:Hp; [| reflexivity].
  apply parseLogLevelString_Some_inv in Hp.
  by destruct (Hnone l').
Qed.

Lemma parseLogLevelString_roundtrip_witness :
  parseLogLevelString (getLogLevelString Warning) = Some Warning
  ∧ parseLogLevelString "warning" = None.
Proof.
  destruct (parseLogLevelString_roundtrip Warning "warning") as (H1 & _ & H3).
  split; [exact H1 |].
  apply H3. intros l'. destruct l'; discriminate.
Defined.

(** ** Filter *)

Lemma LogLevel_le_spec (a b : LogLevel) :
  LogLevel_le a b = true ↔ LogLevel_rank a ≤ LogLevel_rank b.
Proof. unfold LogLevel_le. apply Z.leb_le. Qed.

Lemma string_view_compare_zero (a b : string) :
  (string_view_compare a b =? 0) = true ↔ a = b.
Proof.
  unfold string_view_compare.
  destruct (String.compare a b) eqn:Hc; cbn.
  - apply String.compare_eq_iff in Hc. done.
  - split; [done |]. intros ->.
    pose proof (String.compare_antisym b b) as Ha. rewrite Hc in Ha. done.
  - split; [done |]. intros ->.
    pose proof (String.compare_antisym b b) as Ha. rewrite Hc in Ha. done.
Qed.

(** On a sequence of elements with pairwise different keys, the linear
    search by key finds the element stored under that key, wherever it is. *)
Lemma find_if_first_key {V : Type} (elems : list (string * V)) (d : string) :
  NoDup elems.*1 →
  (∀ v, (d, v) ∈ elems →
     find_if_first (fun k => string_view_compare d k =? 0) elems = Some (d, v))
  ∧ (d ∉ elems.*1 →
     find_if_first (fun k => string_view_compare d k =? 0) elems = None).
Proof.
  induction elems as [| [k v0] rest IH]; intros Hnd.
  - split; [intros v Hv; by apply elem_of_nil in Hv | done].
  - apply NoDup_cons in Hnd as [Hk Hnd]. destruct (IH Hnd) as [IHin IHout].
    cbn [find_if_first fst].
    destruct (string_view_compare d k =? 0) eqn:Hcmp.
    + apply string_view_compare_zero in Hcmp as <-.
      split.
      * intros v [Heq | Hin]%elem_of_cons; [congruence |].
        exfalso. apply Hk. apply list_elem_of_fmap. by exists (d, v).
      * intros Hout. exfalso. apply Hout. cbn. left.
    + assert (d ≠ k) as Hne.
      { intros ->. by rewrite (proj2 (string_view_compare_zero k k)) in Hcmp. }
      split.
      * intros v [Heq | Hin]%elem_of_cons; [congruence | by apply IHin].
      * intros Hout. apply IHout. intros Hin. apply Hout. cbn. by right.
Qed.

Lemma find_if_first_lookup {V : Type} (m : gmap string V) (d : string) :
  find_if_first (fun k => string_view_compare d k =? 0) (map_to_list m)
  = (fun v => (d, v)) <$> m !! d.
Proof.
  destruct (find_if_first_key (map_to_list m) d) as [Hin Hout].
  { apply NoDup_fst_map_to_list. }
  destruct (m !! d) as [v |] eqn:Hl; cbn.
  - apply Hin. by apply elem_of_map_to_list.
  - apply Hout. intros ([k v] & Hk & Hkv)%list_elem_of_fmap. cbn in Hk. subst k.
    apply elem_of_map_to_list in Hkv. congruence.
Qed.

Lemma Filter_checkFilter_lookup (f : Filter) (entry : EntryMetadata) :
  Filter_checkFilter f entry
  = LogLevel_le (level entry)
      (default (default_level f) (domains f !! domain entry)).
Proof.
  unfold Filter_checkFilter. rewrite find_if_first_lookup.
  by destruct (domains f !! domain entry).
Qed.

(** C5: [checkFilter] accepts exactly the entries whose severity is at most
    the override of the entry's domain when the domain has one, and at most
    the default threshold otherwise. *)
Theorem Filter_checkFilter_spec (f : Filter) (entry : EntryMetadata) :
  Filter_checkFilter f entry = true
  ↔ match domains f !! domain entry with
    | Some override => LogLevel_rank (level entry) ≤ LogLevel_rank override
    | None => LogLevel_rank (level entry) ≤ LogLevel_rank (default_level f)
    end.
Proof.
  rewrite Filter_checkFilter_lookup, LogLevel_le_spec.
  by destruct (domains f !! domain entry).
Qed.

Lemma Filter_checkFilter_monotone (f : Filter) (entry : EntryMetadata)
    (s1 s2 : LogLevel) :
  LogLevel_rank s1 ≤ LogLevel_rank s2 →
  Filter_checkFilter f (with_level entry s2) = true →
  Filter_checkFilter f (with_level entry s1) = true.
Proof.
  intros Hle. rewrite !Filter_checkFilter_lookup. cbn.
  rewrite !LogLevel_le_spec. lia.
Qed.

(** C6: the filter is monotone in severity: if an entry of severity [s2]
    is accepted, the same entry at a severity [s1 <= s2] is accepted, by a
    bare [Filter] and by every sink. *)
Theorem filter_monotone_in_severity (f : Filter) (sink : Sink)
    (entry : EntryMetadata) (s1 s2 : LogLevel) :
  LogLevel_rank s1 ≤ LogLevel_rank s2 →
  (Filter_checkFilter f (with_level entry s2) = true →
   Filter_checkFilter f (with_level entry s1) = true)
  ∧ (checkFilter sink (with_level entry s2) = true →
     checkFilter sink (with_level entry s1) = true).
Proof.
  intros Hle. split; [by apply Filter_checkFilter_monotone |].
  induction sink as [base | base fn | base fn | base underlying IH]; cbn;
    try by apply Filter_checkFilter_monotone.
  exact IH.
Qed.

Lemma filter_monotone_in_severity_witness :
  Filter_checkFilter Filter_new
    (with_level (mkEntryMetadata Noise "net" None
                   (mk_source_location "a.cpp" "f" 1 1) 0) Error) = true.
Proof.
  refine (proj1 (filter_monotone_in_severity Filter_new makeConsoleSink
                   (mkEntryMetadata Noise "net" None
                      (mk_source_location "a.cpp" "f" 1 1) 0)
                   Error Info _) _).
  - cbn. lia.
  - vm_compute. reflexivity.
Defined.

Lemma Filter_new_checkFilter (entry : EntryMetadata) :
  Filter_checkFilter Filter_new entry = at_least_Info (level entry).
Proof.
  rewrite Filter_checkFilter_lookup. cbn. rewrite lookup_empty. cbn.
  by destruct (level entry).
Qed.

(** C9: a new [Filter], and with it every sink as its factory returns it,
    has the default threshold [Info] and no override: in every domain it
    accepts Fatal, Critical, Error, Warning and Info and rejects Debug and
    Noise. *)
Theorem fresh_filter_threshold_Info (entry : EntryMetadata) (fn : string) :
  default_level Filter_new = Info
  ∧ Filter_checkFilter Filter_new entry = at_least_Info (level entry)
  ∧ checkFilter makeConsoleSink entry = at_least_Info (level entry)
  ∧ checkFilter (makeFileSink fn) entry = at_least_Info (level entry)
  ∧ checkFilter (makePbFileSink fn) entry = at_least_Info (level entry)
  ∧ checkFilter (makeDeferredSink makeConsoleSink) entry
    = at_least_Info (level entry).
Proof.
  split; [reflexivity |].
  repeat split; cbn; apply Filter_new_checkFilter.
Qed.

(** ** Registry *)

Lemma unordered_map_emplace_present {V : Type} (m : gmap string V)
    (key : string) (old new : V) :
  m !! key = Some old → unordered_map_emplace m key new = m.
Proof. intros Hold. unfold unordered_map_emplace. by rewrite Hold. Qed.

Lemma unordered_map_emplace_absent {V : Type} (m : gmap string V)
    (key : string) (new : V) :
  m !! key = None → unordered_map_emplace m key new !! key = Some new.
Proof.
  intros Hnone. unfold unordered_map_emplace. rewrite Hnone.
  apply lookup_insert_eq.
Qed.

Lemma getSink_lookup (l : Logger) (name : string) (sink : Sink) :
  getSink l name = inr sink ↔ sinks l !! name = Some sink.
Proof.
  unfold getSink. destruct (sinks l !! name); split; congruence.
Qed.

(** C8: [getSink] on a name that is not registered throws (the
    [runtime_error] reaches the caller, no sink is returned); on a registered
    name it returns the sink stored under it.  A name is not registered in a
    new logger and after [removeSink]; it is registered after [addSink]. *)
Theorem getSink_spec (l : Logger) (name : string) (sink : Sink) :
  (name ∉ dom (sinks l) →
     getSink l name = inl (runtime_error ("Failed to find sink " +:+ name)))
  ∧ (sinks l !! name = Some sink → getSink l name = inr sink)
  ∧ (getSink l name = inr sink → sinks l !! name = Some sink)
  ∧ getSink Logger_new name
    = inl (runtime_error ("Failed to find sink " +:+ name))
  ∧ getSink (removeSink l name) name
    = inl (runtime_error ("Failed to find sink " +:+ name))
  ∧ (name ∉ dom (sinks l) → getSink (addSink l name sink) name = inr sink).
Proof.
  repeat split.
  - intros Hnot%not_elem_of_dom. unfold getSink. by rewrite Hnot.
  - apply getSink_lookup.
  - apply getSink_lookup.
  - unfold getSink, removeSink. cbn. by rewrite lookup_delete_eq.
  - intros Hnot%not_elem_of_dom. apply getSink_lookup. cbn.
    by apply unordered_map_emplace_absent.
Qed.

Lemma getSink_spec_witness :
  getSink (addSink Logger_new "console" makeConsoleSink) "file"
  = inl (runtime_error "Failed to find sink file")
  ∧ getSink (addSink Logger_new "console" makeConsoleSink) "console"
    = inr makeConsoleSink.
Proof.
  split.
  - refine (proj1 (getSink_spec (addSink Logger_new "console" makeConsoleSink)
                     "file" makeConsoleSink) _).
    apply not_elem_of_dom. vm_compute. reflexivity.
  - refine (proj1 (proj2 (getSink_spec
                            (addSink Logger_new "console" makeConsoleSink)
                            "console" makeConsoleSink)) _).
    vm_compute. reflexivity.
Defined.

(** ** Dispatcher *)

Section DispatcherProperties.

Context (msvc : bool) (chrono_format : ascii → LogEntryTimestamp → string)
  (stream_failure : string → option exception) (order : unordered_map_order)
  {format_args : Type} (vformat : string → format_args → string).

Local Abbreviation sink_log := (Sink_log msvc chrono_format stream_failure).
Local Abbreviation deliver :=
  (dolog_deliver msvc chrono_format stream_failure format_args).
Local Abbreviation dispatch :=
  (dolog msvc chrono_format stream_failure order format_args vformat).

Lemma elem_of_iterate (m : gmap string Sink) (name : string) (sink : Sink) :
  (name, sink) ∈ iterate order m ↔ m !! name = Some sink.
Proof. by rewrite (iterate_elements order m), elem_of_map_to_list. Qed.

Lemma NoDup_iterate (m : gmap string Sink) : NoDup (iterate order m).
Proof. rewrite (iterate_elements order m). apply NoDup_map_to_list. Qed.

Lemma elem_of_accepting (l : Logger) (meta : EntryMetadata) (name : string)
    (sink : Sink) :
  (name, sink) ∈ accepting (iterate order (sinks l)) meta
  ↔ sinks l !! name = Some sink ∧ checkFilter sink meta = true.
Proof.
  unfold accepting. rewrite list_elem_of_filter, elem_of_iterate. cbn. tauto.
Qed.

Lemma dolog_passed_true (elems : list (string * Sink))
    (meta : EntryMetadata) :
  dolog_passed elems meta = true
  ↔ ∃ kv, kv ∈ elems ∧ checkFilter kv.2 meta = true.
Proof.
  induction elems as [| kv rest IH]; cbn.
  - split; [done |]. intros (kv & Hin & _). by apply elem_of_nil in Hin.
  - destruct (checkFilter kv.2 meta) eqn:Hkv.
    + split; [| done]. intros _. exists kv. split; [left | done].
    + rewrite IH. split.
      * intros (kv' & Hin & Hacc). exists kv'. split; [by right | done].
      * intros (kv' & [-> | Hin]%elem_of_cons & Hacc); [congruence |].
        by exists kv'.
Qed.

Lemma dolog_passed_accepting (elems : list (string * Sink))
    (meta : EntryMetadata) :
  dolog_passed elems meta = true ↔ accepting elems meta ≠ [].
Proof.
  rewrite dolog_passed_true. unfold accepting. split.
  - intros (kv & Hin & Hacc) Hnil.
    assert (kv ∈ filter (λ kv, checkFilter kv.2 meta = true) elems) as Hkv
      by (by apply list_elem_of_filter).
    rewrite Hnil in Hkv. by apply elem_of_nil in Hkv.
  - intros Hne.
    destruct (filter (λ kv, checkFilter kv.2 meta = true) elems)
      as [| kv rest] eqn:Hf; [done |].
    assert (kv ∈ filter (λ kv, checkFilter kv.2 meta = true) elems) as Hkv
      by (rewrite Hf; left).
    apply list_elem_of_filter in Hkv as [Hacc Hin]. by exists kv.
Qed.

(** The second loop calls [log] on the accepting sinks in the order of the
    visit and stops after the first call that does not return. *)
Lemma dolog_deliver_reached (elems : list (string * Sink))
    (meta : EntryMetadata) (msg : string) :
  ∃ reached unreached,
    accepting elems meta = reached ++ unreached
    ∧ (deliver elems meta msg).1
      = (λ kv, EvSinkLog format_args kv.1 kv.2 meta msg) <$> reached
    ∧ ((deliver elems meta msg).2 = LogReturns →
       unreached = []
       ∧ Forall (λ kv, sink_log kv.2 meta msg = LogReturns) reached)
    ∧ ((deliver elems meta msg).2 ≠ LogReturns →
       ∃ front last,
         reached = front ++ [last]
         ∧ Forall (λ kv, sink_log kv.2 meta msg = LogReturns) front
         ∧ sink_log last.2 meta msg = (deliver elems meta msg).2).
Proof.
  unfold accepting.
  induction elems as [| kv rest IH].
  - exists [], []. by repeat split.
  - destruct IH as (reached & unreached & Hacc & Htrace & Hret & Hend).
    cbn [dolog_deliver]. rewrite filter_cons.
    destruct (checkFilter kv.2 meta) eqn:Hkv.
    + rewrite decide_True by done.
      destruct (sink_log kv.2 meta msg) eqn:Hlog.
      * exists (kv :: reached), unreached. cbn [fst snd].
        split; [by rewrite Hacc |]. split; [by rewrite Htrace |]. split.
        -- intros Hr. destruct (Hret Hr) as [-> Hall].
           split; [done |]. by constructor.
        -- intros Hn. destruct (Hend Hn) as (front & last & -> & Hall & Hl).
           exists (kv :: front), last. split; [done |].
           split; [by constructor | done].
      * exists [kv], (filter (λ kv, checkFilter kv.2 meta = true) rest).
        cbn [fst snd]. repeat split; try done.
        intros _. exists [], kv. by repeat split.
      * exists [kv], (filter (λ kv, checkFilter kv.2 meta = true) rest).
        cbn [fst snd]. repeat split; try done.
        intros _. exists [], kv. by repeat split.
    + rewrite decide_False by congruence.
      exists reached, unreached.
      split; [done |]. split; [done |]. split; [exact Hret | exact Hend].
Qed.

(** When the [log] of every accepting sink returns, every accepting sink is
    called. *)
Lemma dolog_deliver_all_return (elems : list (string * Sink))
    (meta : EntryMetadata) (msg : string) :
  Forall (λ kv, sink_log kv.2 meta msg = LogReturns) (accepting elems meta) →
  deliver elems meta msg
  = ((λ kv, EvSinkLog format_args kv.1 kv.2 meta msg)
       <$> accepting elems meta,
     LogReturns).
Proof.
  intros Hall.
  destruct (dolog_deliver_reached elems meta msg)
    as (reached & unreached & Hacc & Htrace & Hret & Hend).
  destruct (deliver elems meta msg) as [tr ended] eqn:Hd. cbn [fst snd] in *.
  destruct ended as [| e |].
  - destruct (Hret eq_refl) as [-> _]. rewrite app_nil_r in Hacc.
    by rewrite Htrace, Hacc.
  - destruct Hend as (front & last & -> & _ & Hlast); [done |].
    rewrite Hacc in Hall. apply Forall_app in Hall as [Hall _].
    apply Forall_app in Hall as [_ Hall]. apply Forall_cons in Hall as [Hall _].
    cbv beta in Hall. rewrite Hlast in Hall. discriminate Hall.
  - destruct Hend as (front & last & -> & _ & Hlast); [done |].
    rewrite Hacc in Hall. apply Forall_app in Hall as [Hall _].
    apply Forall_app in Hall as [_ Hall]. apply Forall_cons in Hall as [Hall _].
    cbv beta in Hall. rewrite Hlast in Hall. discriminate Hall.
Qed.

Lemma count_vformat_deliveries (elems : list (string * Sink))
    (meta : EntryMetadata) (msg : string) :
  count_vformat format_args
    ((λ kv, EvSinkLog format_args kv.1 kv.2 meta msg) <$> elems) = 0%nat.
Proof.
  unfold count_vformat. induction elems as [| kv rest IH]; [done |].
  rewrite fmap_cons, filter_cons. cbn. exact IH.
Qed.

Lemma NoDup_deliveries (elems : list (string * Sink))
    (meta : EntryMetadata) (msg : string) :
  NoDup elems →
  NoDup ((λ kv, EvSinkLog format_args kv.1 kv.2 meta msg) <$> elems).
Proof.
  intros Hnd. apply NoDup_fmap_2; [| done].
  intros [n1 s1] [n2 s2] Heq. cbn in Heq. by injection Heq as -> ->.
Qed.

(** C3, as the code has it: a call of [dolog] whose metadata no registered
    sink accepts does nothing and returns: no expansion of the template, no
    call of [log].  When some sink accepts, the call expands the template
    once, before any delivery, and then calls [log] with that one message on
    accepting sinks only, each at most once, in the order of the visit, up
    to and including the first whose [log] does not return; the call ends
    the way that [log] ended and the accepting sinks after it are not
    reached.  When the [log] of every accepting sink returns, the call
    returns and has called [log] on exactly the accepting sinks.  The two
    public overloads are [dolog] without and with an instance. *)
Theorem dolog_filters_then_formats_once (l : Logger)
    (now : LogEntryTimestamp) (lvl : LogLevel) (dom : string)
    (inst : option string) (loc : source_location) (fmt : string)
    (args : format_args) :
  let meta := mkEntryMetadata lvl dom inst loc now in
  let msg := vformat fmt args in
  let candidates := accepting (iterate order (sinks l)) meta in
  let delivery := λ kv : string * Sink,
    EvSinkLog format_args kv.1 kv.2 meta msg in
  let result := dispatch l now lvl dom inst loc fmt args in
  (∀ name sink,
     (name, sink) ∈ candidates
     ↔ sinks l !! name = Some sink ∧ checkFilter sink meta = true)
  ∧ NoDup candidates
  ∧ ((∀ name sink, sinks l !! name = Some sink →
        checkFilter sink meta = false) →
     result = ([], LogReturns))
  ∧ ((∃ name sink, sinks l !! name = Some sink
        ∧ checkFilter sink meta = true) →
     ∃ reached unreached,
       candidates = reached ++ unreached
       ∧ reached ≠ []
       ∧ result.1 = EvVformat format_args fmt args :: (delivery <$> reached)
       ∧ count_vformat format_args result.1 = 1%nat
       ∧ NoDup (delivery <$> reached)
       ∧ (result.2 = LogReturns →
          unreached = []
          ∧ Forall (λ kv, sink_log kv.2 meta msg = LogReturns) reached)
       ∧ (result.2 ≠ LogReturns →
          ∃ front last,
            reached = front ++ [last]
            ∧ Forall (λ kv, sink_log kv.2 meta msg = LogReturns) front
            ∧ sink_log last.2 meta msg = result.2)
       ∧ ((∀ name sink, sinks l !! name = Some sink →
             checkFilter sink meta = true →
             sink_log sink meta msg = LogReturns) →
          result
          = (EvVformat format_args fmt args :: (delivery <$> candidates),
             LogReturns)
          ∧ ∀ e, e ∈ delivery <$> candidates
               ↔ ∃ name sink,
                   sinks l !! name = Some sink
                   ∧ checkFilter sink meta = true
                   ∧ e = EvSinkLog format_args name sink meta msg))
  ∧ log msvc chrono_format stream_failure order format_args vformat l now lvl
      dom loc fmt args
    = dispatch l now lvl dom None loc fmt args
  ∧ ∀ i,
      log_instance msvc chrono_format stream_failure order format_args
        vformat l now lvl dom i loc fmt args
      = dispatch l now lvl dom (Some i) loc fmt args.
Proof.
  intros meta msg candidates delivery result.
  assert (NoDup candidates) as Hnd
    by (apply NoDup_filter, NoDup_iterate).
  split; [intros name sink; apply elem_of_accepting |].
  split; [exact Hnd |].
  split; [| split; [| done]].
  - intros Hnone. subst result. unfold dolog. fold meta.
    destruct (dolog_passed (iterate order (sinks l)) meta) eqn:Hp; [| done].
    apply dolog_passed_true in Hp as ([name sink] & Hin & Hacc).
    apply elem_of_iterate in Hin. cbn in Hacc.
    specialize (Hnone name sink Hin). congruence.
  - intros (name & sink & Hl & Hacc).
    assert (candidates ≠ []) as Hne.
    { intros Hnil.
      assert ((name, sink) ∈ candidates) as Hin
        by (by apply elem_of_accepting).
      rewrite Hnil in Hin. by apply elem_of_nil in Hin. }
    assert (result
            = (EvVformat format_args fmt args
                 :: (deliver (iterate order (sinks l)) meta msg).1,
               (deliver (iterate order (sinks l)) meta msg).2)) as Hres.
    { subst result. unfold dolog. fold meta. fold msg.
      by rewrite (proj2 (dolog_passed_accepting _ _) Hne). }
    destruct (dolog_deliver_reached (iterate order (sinks l)) meta msg)
      as (reached & unreached & Hacc' & Htrace & Hret & Hend).
    fold candidates in Hacc'. fold delivery in Htrace.
    exists reached, unreached. rewrite Hres. cbn [fst snd].
    split; [done |]. split.
    { intros ->.
      destruct (deliver (iterate order (sinks l)) meta msg).2 eqn:Ho.
      - destruct (Hret eq_refl) as [-> _]. by rewrite app_nil_r in Hacc'.
      - destruct Hend as (front & last & Hfl & _); [done |].
        by destruct front.
      - destruct Hend as (front & last & Hfl & _); [done |].
        by destruct front. }
    split; [by rewrite Htrace |]. split.
    { rewrite Htrace. unfold count_vformat.
      rewrite filter_cons, decide_True by done. cbn [length]. f_equal.
      apply count_vformat_deliveries. }
    split.
    { apply NoDup_deliveries. rewrite Hacc' in Hnd.
      by apply NoDup_app in Hnd as [Hnd _]. }
    split; [exact Hret |]. split; [exact Hend |].
    intros Hall.
    rewrite (dolog_deliver_all_return (iterate order (sinks l)) meta msg).
    + split; [done |]. intros e. rewrite list_elem_of_fmap. split.
      * intros ([n s] & -> & Hin).
        apply (elem_of_accepting l meta n s) in Hin.
        exists n, s. by destruct Hin.
      * intros (n & s & Hn & Hs & ->). exists (n, s).
        split; [done |]. by apply (elem_of_accepting l meta n s).
    + apply Forall_forall. intros [n s] Hin.
      apply (elem_of_accepting l meta n s) in Hin as [Hn Hs].
      by apply (Hall n s).
Qed.

(** A call of [log] that [dolog] makes is on a registered sink that accepts,
    with the call's metadata and the expanded message. *)
Lemma dolog_delivery_inv (l : Logger) (now : LogEntryTimestamp)
    (lvl : LogLevel) (dom : string) (inst : option string)
    (loc : source_location) (fmt : string) (args : format_args)
    (name : string) (receiver : Sink) (meta : EntryMetadata)
    (msg : string) :
  EvSinkLog format_args name receiver meta msg
    ∈ (dispatch l now lvl dom inst loc fmt args).1 →
  sinks l !! name = Some receiver
  ∧ checkFilter receiver (mkEntryMetadata lvl dom inst loc now) = true
  ∧ meta = mkEntryMetadata lvl dom inst loc now
  ∧ msg = vformat fmt args.
Proof.
  unfold dolog.
  destruct (dolog_passed _ _); [| by intros Hin%elem_of_nil].
  cbn [fst]. intros [Heq | Hin]%elem_of_cons; [discriminate |].
  destruct (dolog_deliver_reached (iterate order (sinks l))
              (mkEntryMetadata lvl dom inst loc now) (vformat fmt args))
    as (reached & unreached & Hacc & Htrace & _).
  rewrite Htrace in Hin.
  apply list_elem_of_fmap in Hin as ([n s] & Heq & Hin).
  injection Heq as -> -> -> ->.
  assert ((n, s) ∈ accepting (iterate order (sinks l))
            (mkEntryMetadata lvl dom inst loc now)) as Hin'
    by (rewrite Hacc; apply elem_of_app; by left).
  apply elem_of_accepting in Hin' as [Hn Hs]. done.
Qed.

(** When the [log] of every accepting sink returns, the calls of [log] are
    exactly those on the registered sinks that accept. *)
Lemma dolog_delivers_iff (l : Logger) (now : LogEntryTimestamp)
    (lvl : LogLevel) (dom : string) (inst : option string)
    (loc : source_location) (fmt : string) (args : format_args)
    (name : string) (receiver : Sink) (meta : EntryMetadata) (msg : string) :
  (∀ n s, sinks l !! n = Some s →
     checkFilter s (mkEntryMetadata lvl dom inst loc now) = true →
     sink_log s (mkEntryMetadata lvl dom inst loc now) (vformat fmt args)
     = LogReturns) →
  EvSinkLog format_args name receiver meta msg
    ∈ (dispatch l now lvl dom inst loc fmt args).1
  ↔ sinks l !! name = Some receiver
    ∧ checkFilter receiver (mkEntryMetadata lvl dom inst loc now) = true
    ∧ meta = mkEntryMetadata lvl dom inst loc now
    ∧ msg = vformat fmt args.
Proof.
  intros Hall. split; [apply dolog_delivery_inv |].
  intros (Hl & Hacc & -> & ->).
  assert ((name, receiver) ∈ accepting (iterate order (sinks l))
            (mkEntryMetadata lvl dom inst loc now)) as Hin
    by (by apply elem_of_accepting).
  unfold dolog.
  rewrite (proj2 (dolog_passed_accepting _ _))
    by (intros Hnil; rewrite Hnil in Hin; by apply elem_of_nil in Hin).
  rewrite dolog_deliver_all_return.
  - cbn [fst]. right. apply list_elem_of_fmap. by exists (name, receiver).
  - apply Forall_forall. intros [n s] Hns.
    apply elem_of_accepting in Hns as [Hn Hs]. by apply (Hall n s).
Qed.

End DispatcherProperties.

Lemma dolog_filters_then_formats_once_witness :
  dolog false sample_chrono_format streams_good key_order (list string)
    sample_vformat (addSink Logger_new "console" makeConsoleSink) 5 Debug
    "net" None sample_location "retry {}" ["3"]
  = ([], LogReturns)
  ∧ dolog false sample_chrono_format streams_good key_order (list string)
      sample_vformat sample_logger 5 Debug "net" None sample_location
      "retry {}" ["3"]
    = ([EvVformat (list string) "retry {}" ["3"];
        EvSinkLog (list string) "trace"
          (setDefaultLogLevel (makeFileSink "trace.log") Noise)
          (mkEntryMetadata Debug "net" None sample_location 5) "retry 3"],
       LogReturns).
Proof.
  split.
  - refine (proj1 (proj2 (proj2
              (dolog_filters_then_formats_once false sample_chrono_format
                 streams_good key_order sample_vformat
                 (addSink Logger_new "console" makeConsoleSink) 5 Debug
                 "net" None sample_location "retry {}" ["3"]))) _).
    intros name sink Hl.
    change (sinks (addSink Logger_new "console" makeConsoleSink))
      with (<["console" := makeConsoleSink]> (∅ : gmap string Sink)) in Hl.
    apply lookup_insert_Some in Hl as [[_ <-] | [_ Hl]].
    + vm_compute. reflexivity.
    + rewrite lookup_empty in Hl. discriminate Hl.
  - destruct (proj1 (proj2 (proj2 (proj2
                (dolog_filters_then_formats_once false sample_chrono_format
                   streams_good key_order sample_vformat sample_logger 5
                   Debug "net" None sample_location "retry {}" ["3"])))))
      as (reached & unreached & _ & _ & _ & _ & _ & _ & _ & Hall).
    + exists "trace", (setDefaultLogLevel (makeFileSink "trace.log") Noise).
      split; vm_compute; reflexivity.
    + destruct Hall as [Hres _]; [| exact Hres].
      intros name sink Hl Hacc.
      change (sinks sample_logger)
        with (<["trace" := setDefaultLogLevel (makeFileSink "trace.log") Noise]>
                (<["console" := makeConsoleSink]> (∅ : gmap string Sink)))
        in Hl.
      apply lookup_insert_Some in Hl as [[_ <-] | [_ Hl]];
        [vm_compute; reflexivity |].
      apply lookup_insert_Some in Hl as [[_ <-] | [_ Hl]];
        [vm_compute; reflexivity |].
      rewrite lookup_empty in Hl. discriminate Hl.
Defined.

(** C3 as an unconditional "exactly the accepting destinations" does not
    hold.  Two file sinks are registered and both accept an Error entry; the
    disk is full, so the first write raises.  Whichever of the two the map
    visits first, [log] is called on that one only: the exception leaves
    [dolog] and the other accepting sink is not reached. *)
Lemma dolog_delivers_to_all_accepting_counterexample :
  sinks two_files_logger !! "audit" = Some (makeFileSink "audit.log")
  ∧ sinks two_files_logger !! "trace" = Some (makeFileSink "trace.log")
  ∧ checkFilter (makeFileSink "audit.log")
      (mkEntryMetadata Error "net" None sample_location 5) = true
  ∧ checkFilter (makeFileSink "trace.log")
      (mkEntryMetadata Error "net" None sample_location 5) = true
  ∧ dolog false sample_chrono_format disk_full key_order (list string)
      sample_vformat two_files_logger 5 Error "net" None sample_location
      "retry {}" ["3"]
    = ([EvVformat (list string) "retry {}" ["3"];
        EvSinkLog (list string) "audit" (makeFileSink "audit.log")
          (mkEntryMetadata Error "net" None sample_location 5) "retry 3"],
       LogThrows (runtime_error "basic_ios::clear: iostream error"))
  ∧ dolog false sample_chrono_format disk_full reverse_key_order
      (list string) sample_vformat two_files_logger 5 Error "net" None
      sample_location "retry {}" ["3"]
    = ([EvVformat (list string) "retry {}" ["3"];
        EvSinkLog (list string) "trace" (makeFileSink "trace.log")
          (mkEntryMetadata Error "net" None sample_location 5) "retry 3"],
       LogThrows (runtime_error "basic_ios::clear: iostream error")).
Proof. repeat split; vm_compute; reflexivity. Qed.

(** ** Re-adding a name *)

(** C1, as the code has it: [addSink] on a name that is already registered
    leaves the logger as it was.  [getSink] keeps returning the first
    destination, every later [dolog] does what it would have done without
    the second [addSink], and a delivery under that name goes to the first
    destination. *)
Theorem addSink_registered_name_keeps_first (l : Logger) (name : string)
    (d1 d2 : Sink) :
  sinks l !! name = Some d1 →
  addSink l name d2 = l
  ∧ getSink (addSink l name d2) name = inr d1
  ∧ ∀ (msvc : bool) (chrono_format : ascii → LogEntryTimestamp → string)
      (stream_failure : string → option exception)
      (order : unordered_map_order)
      (format_args : Type) (vformat : string → format_args → string)
      (now : LogEntryTimestamp) (lvl : LogLevel) (dom : string)
      (inst : option string) (loc : source_location) (fmt : string)
      (args : format_args),
      dolog msvc chrono_format stream_failure order format_args vformat
        (addSink l name d2) now lvl dom inst loc fmt args
      = dolog msvc chrono_format stream_failure order format_args vformat l
          now lvl dom inst loc fmt args
      ∧ ∀ receiver meta msg,
          EvSinkLog format_args name receiver meta msg
            ∈ (dolog msvc chrono_format stream_failure order format_args
                 vformat (addSink l name d2) now lvl dom inst loc fmt
                 args).1 →
          receiver = d1.
Proof.
  intros Hd1.
  assert (addSink l name d2 = l) as Hsame.
  { destruct l as [m]. unfold addSink. cbn in *.
    by rewrite (unordered_map_emplace_present m name d1 d2). }
  rewrite Hsame. split; [done |]. split; [by apply getSink_lookup |].
  intros msvc chrono_format stream_failure order format_args vformat now lvl
    dom inst loc fmt args.
  split; [done |].
  intros receiver meta msg [Hin _]%dolog_delivery_inv. congruence.
Qed.

Lemma addSink_registered_name_keeps_first_witness :
  sinks sample_logger !! "console" = Some makeConsoleSink
  ∧ getSink (addSink sample_logger "console" (makePbFileSink "log.pb"))
      "console"
    = inr makeConsoleSink.
Proof.
  assert (sinks sample_logger !! "console" = Some makeConsoleSink) as Hl
    by (vm_compute; reflexivity).
  split; [exact Hl |].
  exact (proj1 (proj2 (addSink_registered_name_keeps_first sample_logger
                         "console" makeConsoleSink (makePbFileSink "log.pb")
                         Hl))).
Defined.

(** C1 with replacement does not hold: with a console sink registered as
    "console", adding a protobuf sink under the same name does not make
    [getSink] return the protobuf sink, and an accepted entry is still
    delivered to the console sink. *)
Lemma addSink_registered_name_replaces_counterexample :
  sinks (addSink Logger_new "console" makeConsoleSink) !! "console"
  = Some makeConsoleSink
  ∧ getSink
      (addSink (addSink Logger_new "console" makeConsoleSink) "console"
         (makePbFileSink "log.pb"))
      "console"
    ≠ inr (makePbFileSink "log.pb")
  ∧ dolog false sample_chrono_format streams_good key_order (list string)
      sample_vformat
      (addSink (addSink Logger_new "console" makeConsoleSink) "console"
         (makePbFileSink "log.pb"))
      5 Error "net" None sample_location "retry {}" ["3"]
    = ([EvVformat (list string) "retry {}" ["3"];
        EvSinkLog (list string) "console" makeConsoleSink
          (mkEntryMetadata Error "net" None sample_location 5) "retry 3"],
       LogReturns).
Proof.
  split; [vm_compute; reflexivity |].
  split; [| vm_compute; reflexivity].
  vm_compute. intros Heq. discriminate Heq.
Qed.

(** ** Format renderer *)

Lemma string_drop_length (n : nat) (sv : string) :
  String.length (string_drop n sv) = (String.length sv - n)%nat.
Proof.
  revert sv. induction n as [| n IH]; intros sv; cbn.
  - lia.
  - destruct sv as [| c rest]; cbn; [done | apply IH].
Qed.

Lemma string_drop_get (n k : nat) (sv : string) :
  String.get k (string_drop n sv) = String.get (n + k) sv.
Proof.
  revert sv. induction n as [| n IH]; intros sv; cbn; [done |].
  destruct sv as [| c rest]; cbn; [by destruct k | apply IH].
Qed.

Lemma find_char_from_found (ch : ascii) (sv : string) (idx : Z) :
  find_char_from ch sv idx = npos
  ∨ (idx ≤ find_char_from ch sv idx < idx + sv_size sv
     ∧ String.get (Z.to_nat (find_char_from ch sv idx - idx)) sv = Some ch).
Proof.
  revert idx. induction sv as [| c rest IH]; intros idx; cbn; [by left |].
  destruct (Ascii.eqb_spec c ch) as [-> | Hne].
  - right. unfold sv_size. cbn [String.length]. split; [lia |].
    by rewrite Z.sub_diag.
  - destruct (IH (idx + 1)) as [Hnpos | [Hrange Hget]]; [by left |].
    right. unfold sv_size in *. cbn [String.length]. split; [lia |].
    replace (Z.to_nat (find_char_from ch rest (idx + 1) - idx))
      with (S (Z.to_nat (find_char_from ch rest (idx + 1) - (idx + 1))))
      by lia.
    exact Hget.
Qed.

Lemma sv_find_found (fmt : string) (ch : ascii) (pos : Z) :
  0 ≤ pos →
  sv_find fmt ch pos = npos
  ∨ (pos ≤ sv_find fmt ch pos < sv_size fmt
     ∧ sv_at fmt (sv_find fmt ch pos) = ch).
Proof.
  intros Hpos. unfold sv_find.
  destruct (Z.ltb_spec pos (sv_size fmt)) as [Hlt | Hge]; [| by left].
  destruct (find_char_from_found ch (string_drop (Z.to_nat pos) fmt) pos)
    as [Hnpos | [Hrange Hget]]; [by left |].
  right. unfold sv_size in *. rewrite string_drop_length in Hrange.
  split; [lia |].
  rewrite string_drop_get in Hget. unfold sv_at.
  rewrite (proj2 (Z.ltb_ge _ _)) by lia.
  replace (Z.to_nat (find_char_from ch (string_drop (Z.to_nat pos) fmt) pos))
    with (Z.to_nat pos + Z.to_nat
            (find_char_from ch (string_drop (Z.to_nat pos) fmt) pos - pos))%nat
    by lia.
  by rewrite Hget.
Qed.

Section RendererProperties.

Context (msvc : bool) (chrono_format : ascii → LogEntryTimestamp → string).

Local Abbreviation body := (formatEntry_body msvc chrono_format).
Local Abbreviation loop := (formatEntry_loop msvc chrono_format).

(** At a ['%'] in the last position a pass changes nothing. *)
Lemma formatEntry_body_last_percent (fmt : string) (meta : EntryMetadata)
    (msg : string) (st : scan) :
  sv_at fmt (scan_s st) = "%"%char →
  ¬ scan_s st < size_t_sub (sv_size fmt) 1 →
  body fmt meta msg st = st.
Proof.
  intros Hat Hlast. unfold formatEntry_body. rewrite Hat. cbn.
  destruct (Z.ltb_spec (scan_s st) (size_t_sub (sv_size fmt) 1)); done.
Qed.

(** A state that a pass does not change, with the loop condition true, is
    never left. *)
Lemma formatEntry_loop_fixed_point (fmt : string) (meta : EntryMetadata)
    (msg : string) (st : scan) (fuel : nat) :
  scan_s st < sv_size fmt →
  body fmt meta msg st = st →
  loop fuel fmt meta msg st = None.
Proof.
  intros Hcond Hfix. induction fuel as [| fuel IH]; cbn.
  - by rewrite (proj2 (Z.ltb_lt _ _) Hcond).
  - by rewrite (proj2 (Z.ltb_lt _ _) Hcond), Hfix.
Qed.

Lemma formatEntry_loop_unfold (fmt : string) (meta : EntryMetadata)
    (msg : string) (st : scan) (fuel : nat) :
  scan_s st < sv_size fmt →
  loop (S fuel) fmt meta msg st = loop fuel fmt meta msg (body fmt meta msg st).
Proof. intros Hcond. cbn. by rewrite (proj2 (Z.ltb_lt _ _) Hcond). Qed.

Lemma formatEntry_loop_exit (fmt : string) (meta : EntryMetadata)
    (msg : string) (st : scan) (fuel : nat) :
  sv_size fmt ≤ scan_s st →
  loop fuel fmt meta msg st = Some (scan_out st).
Proof.
  intros Hcond. destruct fuel; cbn;
    by rewrite (proj2 (Z.ltb_ge _ _) Hcond).
Qed.

(** C2, at the failing inputs: with the template "%", and with the
    template "100%", [formatEntry] does not return: whatever the number of
    passes, the loop condition is still true.  In the second case the
    literal run "100" is copied first and the scan then stays at the
    ['%']. *)
Theorem formatEntry_trailing_percent_never_returns (meta : EntryMetadata)
    (msg : string) :
  formatEntry_diverges msvc chrono_format
    (setFormat FormattedStringSink_new "%") meta msg
  ∧ formatEntry_diverges msvc chrono_format
      (setFormat FormattedStringSink_new "100%") meta msg
  ∧ formatEntry msvc chrono_format
      (setFormat FormattedStringSink_new "%") meta msg = None
  ∧ body "100%" meta msg {| scan_s := 0; scan_out := "" |}
    = {| scan_s := 3; scan_out := "100" |}
  ∧ body "100%" meta msg {| scan_s := 3; scan_out := "100" |}
    = {| scan_s := 3; scan_out := "100" |}.
Proof.
  assert (∀ fuel,
    loop fuel "%" meta msg {| scan_s := 0; scan_out := "" |} = None)
    as Hone.
  { intros fuel. apply formatEntry_loop_fixed_point; [done |].
    apply formatEntry_body_last_percent; [done |]. vm_compute. done. }
  assert (∀ fuel,
    loop fuel "100%" meta msg {| scan_s := 3; scan_out := "100" |} = None)
    as Hstay.
  { intros fuel. apply formatEntry_loop_fixed_point; [done |].
    apply formatEntry_body_last_percent; [done |]. vm_compute. done. }
  split; [exact Hone |].
  split; [intros [| fuel]; [done | apply Hstay] |].
  split; [apply Hone |].
  split; vm_compute; reflexivity.
Qed.

Lemma size_t_add_small (a b : Z) :
  0 ≤ a + b < size_t_modulus → size_t_add a b = a + b.
Proof. intros H. unfold size_t_add. by apply Z.mod_small. Qed.

Lemma size_t_sub_small (a b : Z) :
  0 ≤ a - b < size_t_modulus → size_t_sub a b = a - b.
Proof. intros H. unfold size_t_sub. by apply Z.mod_small. Qed.

(** A character without a case label falls to [default: break]. *)
Lemma directive_default (fmt : string) (meta : EntryMetadata)
    (msg : string) (fc : ascii) (st : scan) :
  is_directive fc = false →
  directive msvc chrono_format fmt meta msg fc st = st.
Proof.
  intros H. unfold is_directive, directive_characters in H.
  cbn [list_ascii_of_string existsb] in H.
  repeat (apply orb_false_elim in H as [? H]).
  unfold directive.
  repeat match goal with
         | Heq : Ascii.eqb fc _ = false |- _ => rewrite Heq; clear Heq
         end.
  reflexivity.
Qed.

Lemma formatEntry_body_unknown_directive (fmt : string)
    (meta : EntryMetadata) (msg : string) (st : scan) :
  sv_size fmt < size_t_modulus →
  0 ≤ scan_s st →
  scan_s st + 1 < sv_size fmt →
  sv_at fmt (scan_s st) = "%"%char →
  is_directive (sv_at fmt (scan_s st + 1)) = false →
  body fmt meta msg st
  = {| scan_s := scan_s st + 2; scan_out := scan_out st |}.
Proof.
  intros Hsize Hs Hnext Hat Hunknown. unfold formatEntry_body.
  rewrite Hat, Ascii.eqb_refl. cbn [negb].
  rewrite (size_t_sub_small (sv_size fmt) 1) by lia.
  rewrite (proj2 (Z.ltb_lt _ _)) by lia.
  rewrite (size_t_add_small (scan_s st) 1) by lia.
  rewrite directive_default by done.
  by rewrite size_t_add_small by lia.
Qed.

(** C7: when the scan stands at a ['%'] that is followed by a character
    with no case label, the pass appends nothing and moves the scan two
    characters on, and the loop goes on from there; the template "a%Zb"
    renders to "ab". *)
Theorem formatEntry_unknown_directive_dropped (fmt : string)
    (meta : EntryMetadata) (msg : string) (st : scan) (fuel : nat) :
  sv_size fmt < size_t_modulus →
  0 ≤ scan_s st →
  scan_s st + 1 < sv_size fmt →
  sv_at fmt (scan_s st) = "%"%char →
  is_directive (sv_at fmt (scan_s st + 1)) = false →
  body fmt meta msg st
  = {| scan_s := scan_s st + 2; scan_out := scan_out st |}
  ∧ loop (S fuel) fmt meta msg st
    = loop fuel fmt meta msg
        {| scan_s := scan_s st + 2; scan_out := scan_out st |}
  ∧ formatEntry msvc chrono_format
      (setFormat FormattedStringSink_new "a%Zb") meta msg = Some "ab".
Proof.
  intros Hsize Hs Hnext Hat Hunknown.
  pose proof (formatEntry_body_unknown_directive fmt meta msg st
                Hsize Hs Hnext Hat Hunknown) as Hbody.
  split; [exact Hbody |]. split.
  - rewrite formatEntry_loop_unfold by lia. by rewrite Hbody.
  - vm_compute. reflexivity.
Qed.

(** A directive leaves [s] where it was, or, for a colour directive with a
    third character, one further. *)
Lemma directive_scan_s (fmt : string) (meta : EntryMetadata) (msg : string)
    (fc : ascii) (st : scan) :
  scan_s (directive msvc chrono_format fmt meta msg fc st) = scan_s st
  ∨ (scan_s st < size_t_sub (sv_size fmt) 2
     ∧ scan_s (directive msvc chrono_format fmt meta msg fc st)
       = size_t_add (scan_s st) 1).
Proof.
  unfold directive, colour_directive.
  repeat match goal with
         | |- context [if Ascii.eqb fc ?c then _ else _] =>
             destruct (Ascii.eqb fc c);
             [first
                [ by left
                | destruct
                    (Z.ltb_spec (scan_s st) (size_t_sub (sv_size fmt) 2));
                  [by right | by left] ] |]
         end.
  by left.
Qed.

(** A pass either changes nothing or moves the scan forward, and never
    past the end. *)
Lemma formatEntry_body_progress (fmt : string) (meta : EntryMetadata)
    (msg : string) (st : scan) :
  sv_size fmt < size_t_modulus →
  0 ≤ scan_s st < sv_size fmt →
  body fmt meta msg st = st
  ∨ scan_s st < scan_s (body fmt meta msg st) ≤ sv_size fmt.
Proof.
  intros Hsize Hs. unfold formatEntry_body.
  destruct (Ascii.eqb_spec (sv_at fmt (scan_s st)) "%") as [Hat | Hat];
    cbn [negb].
  - destruct (Z.ltb_spec (scan_s st) (size_t_sub (sv_size fmt) 1))
      as [Hlt | Hge]; [| by left].
    right. rewrite size_t_sub_small in Hlt by lia. cbn [scan_s].
    destruct (directive_scan_s fmt meta msg
                (sv_at fmt (size_t_add (scan_s st) 1)) st)
      as [-> | [Hthird ->]].
    + rewrite size_t_add_small by lia. lia.
    + rewrite size_t_sub_small in Hthird by lia.
      rewrite (size_t_add_small (scan_s st) 1) by lia.
      rewrite size_t_add_small by lia. lia.
  - right.
    destruct (Z.eqb_spec (sv_find fmt "%" (scan_s st)) npos) as [Hp | Hp];
      cbn [scan_s]; [lia |].
    destruct (sv_find_found fmt "%" (scan_s st)) as [Hn | [Hrange Hch]];
      [lia | done |].
    assert (sv_find fmt "%" (scan_s st) ≠ scan_s st) as Hne
      by (intros Heq; rewrite Heq in Hch; done).
    rewrite size_t_sub_small by lia. rewrite size_t_add_small by lia. lia.
Qed.

Lemma formatEntry_loop_enough (n : nat) (fmt : string)
    (meta : EntryMetadata) (msg : string) (st : scan) (fuel : nat)
    (out : string) :
  sv_size fmt < size_t_modulus →
  0 ≤ scan_s st →
  (Z.to_nat (sv_size fmt - scan_s st) ≤ n)%nat →
  loop fuel fmt meta msg st = Some out →
  loop n fmt meta msg st = Some out.
Proof.
  intros Hsize. revert st fuel.
  induction n as [| n IH]; intros st fuel Hs Hn Hrun.
  - assert (sv_size fmt ≤ scan_s st) as Hexit by lia.
    rewrite formatEntry_loop_exit in Hrun by done.
    by rewrite formatEntry_loop_exit.
  - destruct (Z.lt_ge_cases (scan_s st) (sv_size fmt)) as [Hlt | Hexit].
    + destruct fuel as [| fuel].
      { cbn in Hrun. by rewrite (proj2 (Z.ltb_lt _ _) Hlt) in Hrun. }
      rewrite formatEntry_loop_unfold in Hrun by done.
      rewrite formatEntry_loop_unfold by done.
      destruct (formatEntry_body_progress fmt meta msg st Hsize)
        as [Hfix | Hmove]; [lia | |].
      * rewrite Hfix in Hrun.
        by rewrite formatEntry_loop_fixed_point in Hrun.
      * apply (IH _ fuel); [lia | lia | done].
    + rewrite formatEntry_loop_exit in Hrun by done.
      by rewrite formatEntry_loop_exit.
Qed.

(** The fuel of [formatEntry] is enough: it gives [Some out] exactly when
    the loop leaves with [out], and [None] exactly when the loop never
    leaves. *)
Lemma formatEntry_fuel_enough (f : FormattedStringSink)
    (meta : EntryMetadata) (msg : string) :
  sv_size (getFormatString f (level meta)) < size_t_modulus →
  (∀ out, formatEntry msvc chrono_format f meta msg = Some out
          ↔ formatEntry_returns msvc chrono_format f meta msg out)
  ∧ (formatEntry msvc chrono_format f meta msg = None
     ↔ formatEntry_diverges msvc chrono_format f meta msg).
Proof.
  intros Hsize.
  assert (∀ fuel out,
    loop fuel (getFormatString f (level meta)) meta msg
      {| scan_s := 0; scan_out := "" |} = Some out →
    formatEntry msvc chrono_format f meta msg = Some out) as Henough.
  { intros fuel out Hrun. unfold formatEntry.
    apply (formatEntry_loop_enough _ _ _ _ _ fuel); [done | done | | done].
    cbn [scan_s]. unfold sv_size. lia. }
  split.
  - intros out. split; [intros Hrun; by eexists | ].
    intros [fuel Hrun]. by apply (Henough fuel).
  - split.
    + intros Hnone fuel.
      destruct (loop fuel _ meta msg _) as [out |] eqn:Hrun; [| done].
      apply Henough in Hrun. congruence.
    + intros Hdiv. apply Hdiv.
Qed.

End RendererProperties.

Lemma formatEntry_unknown_directive_dropped_witness :
  formatEntry_body false sample_chrono_format "a%Zb" (sample_meta Warning)
    "disk low" {| scan_s := 1; scan_out := "a" |}
  = {| scan_s := 3; scan_out := "a" |}.
Proof.
  refine (proj1 (formatEntry_unknown_directive_dropped false
                   sample_chrono_format "a%Zb" (sample_meta Warning)
                   "disk low" {| scan_s := 1; scan_out := "a" |} 0
                   _ _ _ _ _)); vm_compute; done.
Defined.

(** ** Deferred sink *)

Section DeferredProperties.

Import Deferred.

Lemma call_of_make_entry (meta : EntryMetadata) (msg : string) :
  call_of (make_entry meta msg) = (meta, msg).
Proof. destruct meta as [lvl dom [inst |] loc ts]; reflexivity. Qed.

(** The owner alone, with the worker not yet started: each call of [log]
    takes four steps and appends its entry. *)
Lemma owner_runs_all_logs (calls : list (EntryMetadata * string))
    (q : list DeferredLogEntry) :
  run (repeat (Run Owner) (4 * length calls))
    {| stop_requested := false; mtx := None; queue := q;
       wpc := W_outer_test; opc := O_next; todo := calls;
       underlying_log := [] |}
  = Some
      {| stop_requested := false; mtx := None;
         queue := q ++ ((fun c => make_entry c.1 c.2) <$> calls);
         wpc := W_outer_test; opc := O_next; todo := [];
         underlying_log := [] |}.
Proof.
  revert q. induction calls as [| [meta msg] rest IH]; intros q.
  - cbn. by rewrite app_nil_r.
  - replace (4 * length ((meta, msg) :: rest))%nat
      with (S (S (S (S (4 * length rest))))) by (cbn [length]; lia).
    cbn [repeat run step]. cbn -[repeat Nat.mul].
    cbv [set_opc set_queue unlock set_mtx stop_requested mtx queue wpc opc
         todo underlying_log].
    rewrite IH. by rewrite <- app_assoc.
Qed.

(** C4, at a failing schedule: the owner enqueues all its entries and runs
    the destructor up to [join] before the worker thread evaluates its
    loop condition for the first time.  The worker then sees
    [stop_requested] set and leaves, [join] returns, and the wrapped sink
    has received nothing: every entry is still in the queue. *)
Theorem deferred_destruction_can_drop_entries
    (calls : list (EntryMetadata * string)) :
  ∃ st,
    run (early_destroy_schedule (length calls)) (init calls) = Some st
    ∧ destroyed st
    ∧ wpc st = W_exited
    ∧ underlying_log st = []
    ∧ call_of <$> queue st = calls.
Proof.
  eexists. split.
  - unfold early_destroy_schedule, init.
    rewrite repeat_app.
    assert (∀ s1 s2 st, run (s1 ++ s2) st = st' ← run s1 st; run s2 st')
      as Hcat.
    { induction s1 as [| c s1 IHs]; intros s2 st; cbn; [done |].
      destruct (step c st); cbn; [apply IHs | done]. }
    rewrite !Hcat, owner_runs_all_logs. reflexivity.
  - cbn. repeat split.
    rewrite <- list_fmap_compose.
    induction calls as [| [meta msg] rest IH]; [done |].
    cbn. by rewrite call_of_make_entry, IH.
Qed.

Lemma accounted_init (calls : list (EntryMetadata * string)) :
  accounted calls (init calls).
Proof. by split. Qed.

Lemma tail_snoc {A : Type} (l : list A) (x : A) :
  l ≠ [] → tail (l ++ [x]) = tail l ++ [x].
Proof. by destruct l. Qed.

Lemma accounted_worker_step (calls : list (EntryMetadata * string))
    (st st' : state) :
  accounted calls st → worker_step st = Some st' → accounted calls st'.
Proof.
  destruct st as [stop m q w o td ul].
  unfold accounted, worker_step, pending, in_flight, lock, unlock,
    set_wpc, set_mtx, set_queue.
  cbn. intros [Hcalls Hq] Hstep.
  destruct w; cbn in *;
    repeat match goal with
           | H : context [match m with _ => _ end] |- _ =>
               destruct m; cbn in H
           | H : context [if ?b then _ else _] |- _ =>
               destruct b eqn:?; cbn in H
           | H : context [match q with _ => _ end] |- _ =>
               destruct q; cbn in H
           end;
    try discriminate Hstep;
    injection Hstep as <-; cbn; try done.
  split; [| done]. rewrite Hcalls. by rewrite <- !app_assoc.
Qed.

Lemma accounted_owner_step (calls : list (EntryMetadata * string))
    (st st' : state) :
  accounted calls st → owner_step st = Some st' → accounted calls st'.
Proof.
  destruct st as [stop m q w o td ul].
  unfold accounted, owner_step, pending, in_flight, lock, unlock,
    notify_one, set_opc, set_wpc, set_mtx, set_queue.
  cbn. intros [Hcalls Hq] Hstep.
  destruct o; cbn in *.
  - destruct td as [| [meta msg] rest].
    + injection Hstep as <-. by cbn.
    + destruct m; [discriminate Hstep |]. injection Hstep as <-. cbn.
      by rewrite call_of_make_entry.
  - injection Hstep as <-. cbn. split.
    + rewrite Hcalls.
      destruct w; cbn; rewrite ?tail_snoc by done;
        rewrite fmap_app; cbn; by rewrite <- !app_assoc.
    + destruct w; try done; by destruct q.
  - by injection Hstep as <-.
  - injection Hstep as <-. by destruct w.
  - injection Hstep as <-. by destruct w.
  - destruct w; try discriminate Hstep. by injection Hstep as <-.
  - discriminate Hstep.
Qed.

Lemma accounted_step (calls : list (EntryMetadata * string))
    (c : choice) (st st' : state) :
  accounted calls st → step c st = Some st' → accounted calls st'.
Proof.
  destruct c as [[| ] |]; cbn.
  - apply accounted_owner_step.
  - apply accounted_worker_step.
  - intros Hacc Hstep. destruct st as [stop m q w o td ul].
    destruct w; try discriminate Hstep. by injection Hstep as <-.
Qed.

Lemma accounted_run (calls : list (EntryMetadata * string))
    (sched : list choice) (st st' : state) :
  accounted calls st → run sched st = Some st' → accounted calls st'.
Proof.
  revert st. induction sched as [| c sched IH]; intros st Hacc Hrun.
  - cbn in Hrun. by injection Hrun as <-.
  - cbn in Hrun. destruct (step c st) as [st1 |] eqn:Hstep; [| done].
    cbn in Hrun. apply (IH st1); [| done]. by eapply accounted_step.
Qed.

(** Whatever the scheduler does, the wrapped sink receives a prefix of
    the owner's calls: in their order, none twice, none made up.  What may
    be missing is a tail. *)
Lemma deferred_log_is_prefix (calls : list (EntryMetadata * string))
    (sched : list choice) (st : state) :
  run sched (init calls) = Some st →
  ∃ missing, calls = underlying_log st ++ missing.
Proof.
  intros Hrun.
  destruct (accounted_run calls sched (init calls) st (accounted_init calls)
              Hrun) as [Hcalls _].
  eexists. exact Hcalls.
Qed.

End DeferredProperties.

(** * Further properties *)

(** ** Filter state and its setters *)

Lemma checkFilter_effective (s : Sink) (entry : EntryMetadata) :
  checkFilter s entry = Filter_checkFilter (effective_filter s) entry.
Proof. induction s; cbn; done. Qed.

Lemma effective_filter_setDomainLogLevel (s : Sink) (d : string)
    (l : LogLevel) :
  effective_filter (setDomainLogLevel s d l)
  = Filter_setDomainLogLevel (effective_filter s) d l.
Proof. induction s; cbn; done. Qed.

Lemma effective_filter_clearDomainLogLevel (s : Sink) (d : string) :
  effective_filter (clearDomainLogLevel s d)
  = Filter_clearDomainLogLevel (effective_filter s) d.
Proof. induction s; cbn; done. Qed.

Lemma effective_filter_setDefaultLogLevel (s : Sink) (l : LogLevel) :
  effective_filter (setDefaultLogLevel s l)
  = Filter_setDefaultLogLevel (effective_filter s) l.
Proof. induction s; cbn; done. Qed.

(** X1: a domain override shadows the default for its own domain only.
    After [setDomainLogLevel(d, l)] on any sink (a deferred sink forwards to
    the sink it wraps), an entry of domain [d] is accepted iff its severity
    is at most [l], whatever the default and the previous override were, and
    an entry of any other domain is judged as before. *)
Theorem setDomainLogLevel_shadows_one_domain (s : Sink) (d : string)
    (l : LogLevel) (entry : EntryMetadata) :
  checkFilter (setDomainLogLevel s d l) entry
  = if decide (domain entry = d)
    then LogLevel_le (level entry) l
    else checkFilter s entry.
Proof.
  rewrite !checkFilter_effective, effective_filter_setDomainLogLevel.
  rewrite !Filter_checkFilter_lookup. cbn.
  destruct (decide (domain entry = d)) as [-> | Hne].
  - by rewrite lookup_insert_eq.
  - by rewrite lookup_insert_ne.
Qed.

(** X2: [clearDomainLogLevel(d)] puts the entries of domain [d] back under
    the default threshold and changes nothing for the other domains;
    clearing a domain that has no override changes nothing at all. *)
Theorem clearDomainLogLevel_reverts_to_default (s : Sink) (d : string)
    (entry : EntryMetadata) :
  checkFilter (clearDomainLogLevel s d) entry
  = (if decide (domain entry = d)
     then LogLevel_le (level entry) (default_level (effective_filter s))
     else checkFilter s entry)
  ∧ (domains (effective_filter s) !! d = None →
     checkFilter (clearDomainLogLevel s d) entry = checkFilter s entry).
Proof.
  rewrite !checkFilter_effective, effective_filter_clearDomainLogLevel.
  rewrite !Filter_checkFilter_lookup. cbn.
  destruct (decide (domain entry = d)) as [-> | Hne].
  - rewrite lookup_delete_eq. split; [done |]. by intros ->.
  - by rewrite lookup_delete_ne.
Qed.

(** X3: [setDefaultLogLevel(l)] changes the verdict only for domains without
    an override: an entry whose domain has an override is judged by the
    override as before, any other entry is accepted iff its severity is at
    most [l]. *)
Theorem setDefaultLogLevel_spares_overrides (s : Sink) (l : LogLevel)
    (entry : EntryMetadata) :
  checkFilter (setDefaultLogLevel s l) entry
  = match domains (effective_filter s) !! domain entry with
    | Some _ => checkFilter s entry
    | None => LogLevel_le (level entry) l
    end.
Proof.
  rewrite !checkFilter_effective, effective_filter_setDefaultLogLevel.
  rewrite !Filter_checkFilter_lookup. cbn.
  by destruct (domains (effective_filter s) !! domain entry).
Qed.

Lemma Filter_set_clear_domain (f : Filter) (d : string) (l : LogLevel) :
  domains f !! d = None →
  Filter_clearDomainLogLevel (Filter_setDomainLogLevel f d l) d = f.
Proof.
  intros Hnone. destruct f as [dl m]. cbn in *.
  unfold Filter_clearDomainLogLevel, Filter_setDomainLogLevel. cbn.
  by rewrite delete_insert_eq, delete_id.
Qed.

Lemma Filter_set_set_domain (f : Filter) (d : string) (l1 l2 : LogLevel) :
  Filter_setDomainLogLevel (Filter_setDomainLogLevel f d l1) d l2
  = Filter_setDomainLogLevel f d l2.
Proof.
  unfold Filter_setDomainLogLevel. cbn. by rewrite insert_insert_eq.
Qed.

(** X4: setting an override on a domain that had none and clearing it again
    gives back the sink as it was, state for state. *)
Theorem set_then_clear_domain_restores (s : Sink) (d : string)
    (l : LogLevel) :
  domains (effective_filter s) !! d = None →
  clearDomainLogLevel (setDomainLogLevel s d l) d = s.
Proof.
  induction s as [base | base fn | base fn | base underlying IH];
    cbn; intros Hnone.
  - destruct base as [f df fm]. unfold with_filter. cbn in *.
    by rewrite Filter_set_clear_domain.
  - destruct base as [f df fm]. unfold with_filter. cbn in *.
    by rewrite Filter_set_clear_domain.
  - by rewrite Filter_set_clear_domain.
  - by rewrite IH.
Qed.

Lemma set_then_clear_domain_restores_witness :
  clearDomainLogLevel (setDomainLogLevel makeConsoleSink "net" Debug) "net"
  = makeConsoleSink.
Proof.
  apply (set_then_clear_domain_restores makeConsoleSink "net" Debug).
  vm_compute. reflexivity.
Defined.

(** X5: the setters are last-writer-wins: a second [setDomainLogLevel] on
    the same domain, or a second [setDefaultLogLevel], leaves the sink as if
    the first had not been made. *)
Theorem setters_last_writer_wins (s : Sink) (d : string) (l1 l2 : LogLevel) :
  setDomainLogLevel (setDomainLogLevel s d l1) d l2 = setDomainLogLevel s d l2
  ∧ setDefaultLogLevel (setDefaultLogLevel s l1) l2 = setDefaultLogLevel s l2.
Proof.
  induction s as [base | base fn | base fn | base underlying [IH1 IH2]];
    cbn; unfold with_filter; cbn; rewrite ?Filter_set_set_domain;
    try done.
  by rewrite IH1, IH2.
Qed.

(** ** Format renderer: whole templates *)

Lemma string_length_append (a b : string) :
  String.length (a +:+ b) = (String.length a + String.length b)%nat.
Proof.
  induction a as [| c a IH]; [done |].
  change (S (String.length (a +:+ b))
          = S (String.length a + String.length b)).
  by rewrite IH.
Qed.

Lemma string_append_empty_r (a : string) : a +:+ "" = a.
Proof.
  induction a as [| c a IH]; [done |].
  change (String c (a +:+ "") = String c a). by rewrite IH.
Qed.

Lemma substring_whole (sv : string) :
  String.substring 0 (String.length sv) sv = sv.
Proof. induction sv as [| c sv IH]; cbn; [done | by rewrite IH]. Qed.

Lemma find_char_from_absent (ch : ascii) (sv : string) (idx : Z) :
  has_char ch sv = false → find_char_from ch sv idx = npos.
Proof.
  revert idx. induction sv as [| c sv IH]; intros idx Habs; cbn in *;
    [done |].
  apply orb_false_elim in Habs as [Hc Hrest]. rewrite Hc. by apply IH.
Qed.

Lemma last_char_get (sv : string) (c : ascii) :
  last_char (String c sv) = String.get (String.length sv) (String c sv).
Proof.
  revert c. induction sv as [| c' sv IH]; intros c; [done |].
  change (last_char (String c' sv)
          = String.get (String.length sv) (String c' sv)).
  apply IH.
Qed.

Lemma last_char_at (sv : string) :
  0 < sv_size sv → last_char sv = Some (sv_at sv (sv_size sv - 1)).
Proof.
  unfold sv_at, sv_size. destruct sv as [| c sv]; [cbn; lia |].
  intros _. rewrite last_char_get.
  change (String.length (String c sv)) with (S (String.length sv)).
  rewrite (proj2 (Z.ltb_ge _ _)) by lia.
  replace (Z.to_nat (Z.of_nat (S (String.length sv)) - 1))
    with (String.length sv) by lia.
  destruct (String.get (String.length sv) (String c sv)) eqn:Hget; [done |].
  exfalso. revert Hget. clear. revert c. induction sv as [| c' sv IH]; intros c; [done |].
  change (String.get (String.length sv) (String c' sv) = None → False).
  apply IH.
Qed.

Section RendererWholeTemplates.

Context (msvc : bool) (chrono_format : ascii → LogEntryTimestamp → string).

Local Abbreviation body := (formatEntry_body msvc chrono_format).
Local Abbreviation loop := (formatEntry_loop msvc chrono_format).

(** X6: a template with no ['%'] in it renders to itself, whatever the
    entry and the message are (the empty template to the empty string). *)
Theorem formatEntry_literal_template (f : FormattedStringSink)
    (meta : EntryMetadata) (msg : string) :
  has_char "%" (getFormatString f (level meta)) = false →
  sv_size (getFormatString f (level meta)) < size_t_modulus →
  formatEntry msvc chrono_format f meta msg
  = Some (getFormatString f (level meta)).
Proof.
  unfold formatEntry. generalize (getFormatString f (level meta)) as fmt.
  intros fmt Hlit Hsize.
  destruct fmt as [| c rest] eqn:Hfmt; [done |]. rewrite <- Hfmt in *.
  assert (0 < sv_size fmt) as Hpos
    by (rewrite Hfmt; unfold sv_size; cbn [String.length]; lia).
  rewrite formatEntry_loop_unfold by done.
  assert (body fmt meta msg {| scan_s := 0; scan_out := "" |}
          = {| scan_s := sv_size fmt; scan_out := fmt |}) as ->.
  { unfold formatEntry_body. cbn [scan_s scan_out].
    assert (Ascii.eqb (sv_at fmt 0) "%" = false) as ->.
    { rewrite Hfmt in Hlit |- *.
      change (Ascii.eqb c "%" || has_char "%" rest = false) in Hlit.
      change (sv_at (String c rest) 0) with c.
      by apply orb_false_elim in Hlit as [-> _]. }
    cbn [negb].
    assert (sv_find fmt "%" 0 = npos) as ->.
    { unfold sv_find. rewrite (proj2 (Z.ltb_lt _ _)) by done.
      by apply find_char_from_absent. }
    rewrite Z.eqb_refl. f_equal. cbn [String.append].
    unfold sv_substr. rewrite Z.sub_0_r, Z.min_r by (unfold npos; lia).
    unfold sv_size. rewrite Nat2Z.id. apply substring_whole. }
  by rewrite formatEntry_loop_exit.
Qed.

(** X7: the message directive inserts the message as it is: with the
    template "%x" the output is the message, character for character, also
    when the message contains ['%'] or whole directives (the message is not
    scanned). *)
Theorem formatEntry_message_verbatim (f : FormattedStringSink)
    (meta : EntryMetadata) (msg : string) :
  getFormatString f (level meta) = "%x" →
  formatEntry msvc chrono_format f meta msg = Some msg.
Proof.
  intros Hfmt. unfold formatEntry. rewrite Hfmt. reflexivity.
Qed.

(** A pass that changes nothing stands at a ['%'] in the last position. *)
Lemma formatEntry_body_stuck_only_at_last_percent (fmt : string)
    (meta : EntryMetadata) (msg : string) (st : scan) :
  sv_size fmt < size_t_modulus →
  0 ≤ scan_s st < sv_size fmt →
  (sv_at fmt (scan_s st) = "%"%char ∧ scan_s st = sv_size fmt - 1)
  ∨ scan_s st < scan_s (body fmt meta msg st) ≤ sv_size fmt.
Proof.
  intros Hsize Hs.
  destruct (Ascii.eqb_spec (sv_at fmt (scan_s st)) "%") as [Hat | Hat].
  - destruct (Z.lt_ge_cases (scan_s st) (sv_size fmt - 1)) as [Hlt | Hge];
      [| left; split; [done | lia]].
    destruct (formatEntry_body_progress msvc chrono_format fmt meta msg st
                Hsize Hs) as [Hfix | Hmove]; [| by right].
    exfalso. revert Hfix. unfold formatEntry_body.
    rewrite Hat, Ascii.eqb_refl. cbn [negb].
    rewrite size_t_sub_small by lia.
    rewrite (proj2 (Z.ltb_lt _ _)) by lia.
    intros Hfix. apply (f_equal scan_s) in Hfix. cbn [scan_s] in Hfix.
    destruct (directive_scan_s msvc chrono_format fmt meta msg
                (sv_at fmt (size_t_add (scan_s st) 1)) st)
      as [Heq | [Hthird Heq]]; rewrite Heq in Hfix.
    + rewrite size_t_add_small in Hfix by lia. lia.
    + rewrite size_t_sub_small in Hthird by lia.
      rewrite (size_t_add_small (scan_s st) 1) in Hfix by lia.
      rewrite size_t_add_small in Hfix by lia. lia.
  - destruct (formatEntry_body_progress msvc chrono_format fmt meta msg st
                Hsize Hs) as [Hfix | Hmove]; [| by right].
    exfalso. revert Hfix. unfold formatEntry_body.
    rewrite (proj2 (Ascii.eqb_neq _ _) Hat). cbn [negb].
    destruct (Z.eqb_spec (sv_find fmt "%" (scan_s st)) npos) as [Hp | Hp];
      intros Hfix; apply (f_equal scan_s) in Hfix; cbn [scan_s] in Hfix;
      [lia |].
    destruct (sv_find_found fmt "%" (scan_s st)) as [Hn | [Hrange Hch]];
      [lia | done |].
    rewrite size_t_sub_small, size_t_add_small in Hfix by lia.
    assert (sv_find fmt "%" (scan_s st) = scan_s st) as Heq by lia.
    rewrite Heq in Hch. done.
Qed.

Lemma formatEntry_loop_returns (n : nat) (fmt : string)
    (meta : EntryMetadata) (msg : string) (st : scan) :
  sv_size fmt < size_t_modulus →
  last_char fmt ≠ Some "%"%char →
  0 ≤ scan_s st →
  (Z.to_nat (sv_size fmt - scan_s st) ≤ n)%nat →
  ∃ out, loop n fmt meta msg st = Some out.
Proof.
  intros Hsize Hlast. revert st.
  induction n as [| n IH]; intros st Hs Hn.
  - exists (scan_out st). apply formatEntry_loop_exit. lia.
  - destruct (Z.lt_ge_cases (scan_s st) (sv_size fmt)) as [Hlt | Hexit];
      [| exists (scan_out st); by apply formatEntry_loop_exit].
    rewrite formatEntry_loop_unfold by done.
    destruct (formatEntry_body_stuck_only_at_last_percent fmt meta msg st
                Hsize) as [[Hat Heq] | Hmove]; [lia | |].
    + exfalso. apply Hlast. rewrite last_char_at by lia.
      by rewrite <- Heq, Hat.
    + apply IH; lia.
Qed.

(** X8: [formatEntry] returns for every template that does not end in
    ['%']: the only way for the scan not to come to an end is the ['%'] in
    the last position. *)
Theorem formatEntry_returns_unless_trailing_percent
    (f : FormattedStringSink) (meta : EntryMetadata) (msg : string) :
  sv_size (getFormatString f (level meta)) < size_t_modulus →
  last_char (getFormatString f (level meta)) ≠ Some "%"%char →
  ∃ out, formatEntry msvc chrono_format f meta msg = Some out.
Proof.
  intros Hsize Hlast. unfold formatEntry.
  apply formatEntry_loop_returns; [done | done | done |].
  cbn [scan_s]. unfold sv_size. lia.
Qed.

End RendererWholeTemplates.

Lemma formatEntry_literal_template_witness :
  formatEntry false sample_chrono_format
    (setFormat FormattedStringSink_new "plain text") (sample_meta Info)
    "ignored"
  = Some "plain text".
Proof.
  apply (formatEntry_literal_template false sample_chrono_format
           (setFormat FormattedStringSink_new "plain text")
           (sample_meta Info) "ignored");
    vm_compute; reflexivity.
Defined.

Lemma formatEntry_message_verbatim_witness :
  formatEntry false sample_chrono_format
    (setFormat FormattedStringSink_new "%x") (sample_meta Info) "100% %L done%"
  = Some "100% %L done%".
Proof.
  apply (formatEntry_message_verbatim false sample_chrono_format
           (setFormat FormattedStringSink_new "%x") (sample_meta Info)
           "100% %L done%").
  vm_compute. reflexivity.
Defined.

Lemma formatEntry_returns_unless_trailing_percent_witness :
  ∃ out,
    formatEntry false sample_chrono_format FormattedStringSink_new
      (sample_meta Warning) "disk low" = Some out.
Proof.
  apply (formatEntry_returns_unless_trailing_percent false
           sample_chrono_format FormattedStringSink_new (sample_meta Warning)
           "disk low").
  - vm_compute. reflexivity.
  - vm_compute. intros Heq. discriminate Heq.
Defined.

(** ** Format renderer: single directives *)

Section RendererDirectives.

Context (msvc : bool) (chrono_format : ascii → LogEntryTimestamp → string).

Local Abbreviation body := (formatEntry_body msvc chrono_format).

(** A pass at a ['%'] that is not in the last position: the directive, then
    two characters on. *)
Lemma formatEntry_body_directive (fmt : string) (meta : EntryMetadata)
    (msg : string) (st : scan) :
  sv_size fmt < size_t_modulus →
  0 ≤ scan_s st →
  scan_s st + 1 < sv_size fmt →
  sv_at fmt (scan_s st) = "%"%char →
  body fmt meta msg st
  = {| scan_s :=
         size_t_add
           (scan_s (directive msvc chrono_format fmt meta msg
                      (sv_at fmt (scan_s st + 1)) st)) 2;
       scan_out :=
         scan_out (directive msvc chrono_format fmt meta msg
                     (sv_at fmt (scan_s st + 1)) st) |}.
Proof.
  intros Hsize Hs Hnext Hat. unfold formatEntry_body.
  rewrite Hat, Ascii.eqb_refl. cbn [negb].
  rewrite (size_t_sub_small (sv_size fmt) 1) by lia.
  rewrite (proj2 (Z.ltb_lt _ _)) by lia.
  by rewrite (size_t_add_small (scan_s st) 1) by lia.
Qed.

(** X9: the level directive always contributes eight characters: the
    level's name, padded on the left with spaces. *)
Theorem level_directive_is_eight_wide (fmt : string) (meta : EntryMetadata)
    (msg : string) (st : scan) :
  sv_size fmt < size_t_modulus →
  0 ≤ scan_s st →
  scan_s st + 1 < sv_size fmt →
  sv_at fmt (scan_s st) = "%"%char →
  sv_at fmt (scan_s st + 1) = "L"%char →
  ∃ label pad,
    body fmt meta msg st
    = {| scan_s := scan_s st + 2; scan_out := scan_out st +:+ label |}
    ∧ String.length label = 8%nat
    ∧ label = spaces pad +:+ getLogLevelString (level meta).
Proof.
  intros Hsize Hs Hnext Hat HL.
  exists (format_right8 (getLogLevelString (level meta))),
         (8 - String.length (getLogLevelString (level meta)))%nat.
  split; [| split; [by destruct (level meta) | done]].
  rewrite formatEntry_body_directive by done. rewrite HL.
  cbn [directive Ascii.eqb Bool.eqb scan_s scan_out]. unfold directive.
  cbn [Ascii.eqb Bool.eqb scan_s scan_out].
  by rewrite size_t_add_small by lia.
Qed.

(** X10: a colour directive never reads past the template.  When ["%C"] or
    ["%Q"] are the last two characters they are skipped and nothing is
    appended; otherwise the third character is consumed with them, and the
    escape sequence of its table entry is appended, or nothing when it has
    no entry. *)
Theorem colour_directive_bounds (fmt : string) (meta : EntryMetadata)
    (msg : string) (st : scan) (background : bool) :
  sv_size fmt < size_t_modulus →
  0 ≤ scan_s st →
  scan_s st + 1 < sv_size fmt →
  sv_at fmt (scan_s st) = "%"%char →
  sv_at fmt (scan_s st + 1) = (if background then "Q" else "C")%char →
  body fmt meta msg st
  = if scan_s st + 2 <? sv_size fmt
    then {| scan_s := scan_s st + 3;
            scan_out :=
              append_code (scan_out st)
                ((if background then background_code else foreground_code)
                   (sv_at fmt (scan_s st + 2))) |}
    else {| scan_s := scan_s st + 2; scan_out := scan_out st |}.
Proof.
  intros Hsize Hs Hnext Hat Hc.
  rewrite formatEntry_body_directive by done. rewrite Hc.
  assert (directive msvc chrono_format fmt meta msg
            (if background then "Q"%char else "C"%char) st
          = colour_directive
              (if background then background_code else foreground_code)
              fmt st) as ->.
  { by destruct background. }
  unfold colour_directive.
  rewrite (size_t_sub_small (sv_size fmt) 2) by lia.
  destruct (Z.ltb_spec (scan_s st + 2) (sv_size fmt)) as [Hthird | Hend].
  - rewrite (proj2 (Z.ltb_lt _ _)) by lia. cbn [scan_s scan_out].
    rewrite (size_t_add_small (scan_s st) 2) by lia.
    rewrite (size_t_add_small (scan_s st) 1) by lia.
    rewrite size_t_add_small by lia. f_equal. lia.
  - rewrite (proj2 (Z.ltb_ge _ _)) by lia.
    by rewrite size_t_add_small by lia.
Qed.

End RendererDirectives.

Lemma level_directive_is_eight_wide_witness :
  ∃ label pad,
    formatEntry_body false sample_chrono_format "%L: %x%n"
      (sample_meta Warning) "disk low" {| scan_s := 0; scan_out := "" |}
    = {| scan_s := 0 + 2; scan_out := "" +:+ label |}
    ∧ String.length label = 8%nat
    ∧ label = spaces pad +:+ getLogLevelString Warning.
Proof.
  apply (level_directive_is_eight_wide false sample_chrono_format "%L: %x%n"
           (sample_meta Warning) "disk low"
           {| scan_s := 0; scan_out := "" |});
    vm_compute; done.
Defined.

Lemma colour_directive_bounds_witness :
  formatEntry_body false sample_chrono_format "ok%C" (sample_meta Info) "m"
    {| scan_s := 2; scan_out := "ok" |}
  = {| scan_s := 4; scan_out := "ok" |}.
Proof.
  apply (colour_directive_bounds false sample_chrono_format "ok%C"
           (sample_meta Info) "m" {| scan_s := 2; scan_out := "ok" |} false);
    vm_compute; done.
Defined.

(** ** Per-severity templates *)

(** X11: a per-severity template overrides the default for its severity
    only; [clearFormat] puts that severity back on the default template; and
    [setFormat] on the default changes nothing for a severity that has an
    override. *)
Theorem getFormatString_overrides (f : FormattedStringSink)
    (lvl lvl' : LogLevel) (fmt : string) :
  getFormatString (setFormatLevel f lvl fmt) lvl'
  = (if decide (lvl = lvl') then fmt else getFormatString f lvl')
  ∧ getFormatString (clearFormat f lvl) lvl'
    = (if decide (lvl = lvl') then default_fmt f else getFormatString f lvl')
  ∧ getFormatString (setFormat f fmt) lvl'
    = match fmts f !! lvl' with
      | Some _ => getFormatString f lvl'
      | None => fmt
      end.
Proof.
  unfold getFormatString, setFormatLevel, clearFormat, setFormat. cbn.
  destruct (decide (lvl = lvl')) as [-> | Hne].
  - rewrite lookup_insert_eq, lookup_delete_eq.
    by destruct (fmts f !! lvl').
  - rewrite lookup_insert_ne, lookup_delete_ne by done.
    by destruct (fmts f !! lvl').
Qed.

(** ** File names *)

Lemma find_last_char_from_absent (ch : ascii) (sv : string) (idx last : Z) :
  has_char ch sv = false → find_last_char_from ch sv idx last = last.
Proof.
  revert idx last. induction sv as [| c sv IH]; intros idx last Habs;
    [done |].
  change (Ascii.eqb c ch || has_char ch sv = false) in Habs.
  apply orb_false_elim in Habs as [Hc Hrest].
  cbn [find_last_char_from]. rewrite Hc. by apply IH.
Qed.

Lemma find_last_char_from_split (ch : ascii) (dir base : string)
    (idx last : Z) :
  has_char ch base = false →
  find_last_char_from ch (dir +:+ String ch base) idx last
  = idx + Z.of_nat (String.length dir).
Proof.
  intros Hbase. revert idx last.
  induction dir as [| c dir IH]; intros idx last.
  - change (find_last_char_from ch base (idx + 1)
              (if Ascii.eqb ch ch then idx else last) = idx + 0).
    rewrite Ascii.eqb_refl, find_last_char_from_absent by done. lia.
  - change (find_last_char_from ch (dir +:+ String ch base) (idx + 1)
              (if Ascii.eqb c ch then idx else last)
            = idx + Z.of_nat (S (String.length dir))).
    rewrite IH. lia.
Qed.

Lemma string_drop_past_prefix (dir base : string) (c : ascii) :
  string_drop (S (String.length dir)) (dir +:+ String c base) = base.
Proof.
  induction dir as [| c' dir IH]; [done |].
  change (string_drop (S (String.length dir)) (dir +:+ String c base) = base).
  exact IH.
Qed.

(** X12: [truncateFilename] gives the base name: of a path that ends in a
    separator-free name after a separator it keeps that name, whatever
    directories (with whatever separators) come before; a name without a
    separator is returned as it is. *)
Theorem truncateFilename_basename (msvc : bool) (dir base : string) :
  has_char (path_separator msvc) base = false →
  sv_size (dir +:+ String (path_separator msvc) base) < size_t_modulus →
  truncateFilename msvc (dir +:+ String (path_separator msvc) base) = base
  ∧ truncateFilename msvc base = base.
Proof.
  intros Hbase Hsize. unfold truncateFilename, sv_find_last_of.
  fold (path_separator msvc). split.
  - rewrite find_last_char_from_split by done.
    unfold sv_size in Hsize. rewrite string_length_append in Hsize.
    cbn [String.length] in Hsize.
    rewrite size_t_add_small by lia.
    unfold sv_remove_prefix.
    replace (Z.to_nat (0 + Z.of_nat (String.length dir) + 1))
      with (S (String.length dir)) by lia.
    apply string_drop_past_prefix.
  - by rewrite find_last_char_from_absent.
Qed.

Lemma truncateFilename_basename_witness :
  truncateFilename false "/src/net/socket.cpp" = "socket.cpp"
  ∧ truncateFilename false "socket.cpp" = "socket.cpp".
Proof.
  apply (truncateFilename_basename false "/src/net" "socket.cpp");
    vm_compute; reflexivity.
Defined.

(** ** Registry: how the operations compose *)

(** X13: [addSink] and [removeSink] touch one name: what [getSink] returns
    (or throws) for any other name is what it was. *)
Theorem registry_operations_are_local (l : Logger) (name other : string)
    (sink : Sink) :
  name ≠ other →
  getSink (addSink l name sink) other = getSink l other
  ∧ getSink (removeSink l name) other = getSink l other.
Proof.
  intros Hne. unfold getSink, addSink, removeSink, unordered_map_emplace.
  cbn. rewrite lookup_delete_ne by done.
  destruct (sinks l !! name); [done |]. by rewrite lookup_insert_ne.
Qed.

Lemma registry_operations_are_local_witness :
  getSink (addSink sample_logger "pb" (makePbFileSink "log.pb")) "console"
  = getSink sample_logger "console"
  ∧ getSink (removeSink sample_logger "trace") "console"
    = getSink sample_logger "console".
Proof.
  split.
  - apply (registry_operations_are_local sample_logger "pb" "console"
             (makePbFileSink "log.pb")).
    intros Heq. discriminate Heq.
  - apply (registry_operations_are_local sample_logger "trace" "console"
             makeConsoleSink).
    intros Heq. discriminate Heq.
Defined.

(** X14: to put another destination under a name that is taken, remove the
    name first: after [removeSink(name)] and [addSink(name, d2)], [getSink]
    returns [d2], whether or not the name was registered before. *)
Theorem removeSink_then_addSink_replaces (l : Logger) (name : string)
    (d2 : Sink) :
  getSink (addSink (removeSink l name) name d2) name = inr d2
  ∧ sinks (addSink (removeSink l name) name d2) = <[name := d2]> (sinks l).
Proof.
  unfold getSink, addSink, removeSink, unordered_map_emplace. cbn.
  rewrite lookup_delete_eq. cbn. rewrite lookup_insert_eq.
  split; [done |]. apply insert_delete_eq.
Qed.

(** X15: [removeSink] on a name that is not registered does nothing and
    does not throw. *)
Theorem removeSink_unregistered_is_noop (l : Logger) (name : string) :
  sinks l !! name = None → removeSink l name = l.
Proof.
  intros Hnone. destruct l as [m]. unfold removeSink. cbn in *.
  by rewrite delete_id.
Qed.

Lemma removeSink_unregistered_is_noop_witness :
  removeSink sample_logger "pb" = sample_logger.
Proof.
  apply (removeSink_unregistered_is_noop sample_logger "pb").
  vm_compute. reflexivity.
Defined.

Section DispatcherComposition.

Context (msvc : bool) (chrono_format : ascii → LogEntryTimestamp → string)
  (stream_failure : string → option exception) (order : unordered_map_order)
  {format_args : Type} (vformat : string → format_args → string).

Local Abbreviation sink_log := (Sink_log msvc chrono_format stream_failure).
Local Abbreviation dispatch :=
  (dolog msvc chrono_format stream_failure order format_args vformat).

(** X16: after [removeSink(name)] a call of [dolog] makes no delivery under
    that name, whatever the sinks do; and when the [log] of every accepting
    sink returns, it makes exactly the deliveries it made before under the
    other names. *)
Theorem dolog_after_removeSink (l : Logger) (removed : string)
    (now : LogEntryTimestamp) (lvl : LogLevel) (dom : string)
    (inst : option string) (loc : source_location) (fmt : string)
    (args : format_args) (name : string) (receiver : Sink)
    (meta : EntryMetadata) (msg : string) :
  (EvSinkLog format_args removed receiver meta msg
     ∉ (dispatch (removeSink l removed) now lvl dom inst loc fmt args).1)
  ∧ ((∀ n s, sinks l !! n = Some s →
        checkFilter s (mkEntryMetadata lvl dom inst loc now) = true →
        sink_log s (mkEntryMetadata lvl dom inst loc now) (vformat fmt args)
        = LogReturns) →
     EvSinkLog format_args name receiver meta msg
       ∈ (dispatch (removeSink l removed) now lvl dom inst loc fmt args).1
     ↔ name ≠ removed
       ∧ EvSinkLog format_args name receiver meta msg
           ∈ (dispatch l now lvl dom inst loc fmt args).1).
Proof.
  split.
  - intros [Hl _]%dolog_delivery_inv. unfold removeSink in Hl. cbn in Hl.
    by rewrite lookup_delete_eq in Hl.
  - intros Hall. rewrite (dolog_delivers_iff msvc chrono_format stream_failure order
               vformat l) by done.
    rewrite (dolog_delivers_iff msvc chrono_format stream_failure order
               vformat (removeSink l removed)).
    + unfold removeSink. cbn. rewrite lookup_delete_Some. split.
      * intros ([Hne Hl] & Hrest). split; [congruence | done].
      * intros (Hne & Hl & Hrest).
        split; [split; [congruence | done] | done].
    + intros n s Hn. unfold removeSink in Hn. cbn in Hn.
      apply lookup_delete_Some in Hn as [_ Hn]. by apply (Hall n s).
Qed.

(** X17: when the [log] of every accepting sink returns (the added one
    included), a sink added under a fresh name is called iff its filter
    accepts the entry, and the deliveries to the sinks already registered
    are what they were. *)
Theorem dolog_after_addSink (l : Logger) (added : string) (sink : Sink)
    (now : LogEntryTimestamp) (lvl : LogLevel) (dom : string)
    (inst : option string) (loc : source_location) (fmt : string)
    (args : format_args) (name : string) (receiver : Sink)
    (meta : EntryMetadata) (msg : string) :
  sinks l !! added = None →
  (∀ n s, sinks l !! n = Some s →
     checkFilter s (mkEntryMetadata lvl dom inst loc now) = true →
     sink_log s (mkEntryMetadata lvl dom inst loc now) (vformat fmt args)
     = LogReturns) →
  (checkFilter sink (mkEntryMetadata lvl dom inst loc now) = true →
   sink_log sink (mkEntryMetadata lvl dom inst loc now) (vformat fmt args)
   = LogReturns) →
  EvSinkLog format_args name receiver meta msg
    ∈ (dispatch (addSink l added sink) now lvl dom inst loc fmt args).1
  ↔ (name = added ∧ receiver = sink
     ∧ checkFilter sink (mkEntryMetadata lvl dom inst loc now) = true
     ∧ meta = mkEntryMetadata lvl dom inst loc now
     ∧ msg = vformat fmt args)
    ∨ (name ≠ added
       ∧ EvSinkLog format_args name receiver meta msg
           ∈ (dispatch l now lvl dom inst loc fmt args).1).
Proof.
  intros Hfresh Hall Hsink.
  assert (sinks (addSink l added sink) = <[added := sink]> (sinks l)) as Hs.
  { unfold addSink, unordered_map_emplace. cbn. by rewrite Hfresh. }
  rewrite (dolog_delivers_iff msvc chrono_format stream_failure order
             vformat l) by done.
  rewrite (dolog_delivers_iff msvc chrono_format stream_failure order
             vformat (addSink l added sink)).
  - rewrite Hs, lookup_insert_Some. split.
    + intros ([[<- <-] | [Hne Hl]] & Hacc & Hmeta & Hmsg).
      * by left.
      * right. by repeat split.
    + intros [(-> & -> & Hacc & Hmeta & Hmsg)
             | (Hne & Hl & Hacc & Hmeta & Hmsg)].
      * split; [by left | done].
      * split; [right; by split | done].
  - intros n s Hn. rewrite Hs in Hn.
    apply lookup_insert_Some in Hn as [[_ <-] | [_ Hn]];
      [exact Hsink | by apply (Hall n s)].
Qed.

End DispatcherComposition.

Lemma dolog_after_removeSink_witness :
  (EvSinkLog (list string) "trace"
     (setDefaultLogLevel (makeFileSink "trace.log") Noise)
     (mkEntryMetadata Error "net" None sample_location 5) "retry 3"
   ∉ (dolog false sample_chrono_format streams_good key_order (list string)
        sample_vformat (removeSink sample_logger "trace") 5 Error "net" None
        sample_location "retry {}" ["3"]).1)
  ∧ (EvSinkLog (list string) "console" makeConsoleSink
       (mkEntryMetadata Error "net" None sample_location 5) "retry 3"
     ∈ (dolog false sample_chrono_format streams_good key_order (list string)
          sample_vformat (removeSink sample_logger "trace") 5 Error "net"
          None sample_location "retry {}" ["3"]).1
     ↔ "console" ≠ "trace"
       ∧ EvSinkLog (list string) "console" makeConsoleSink
           (mkEntryMetadata Error "net" None sample_location 5) "retry 3"
         ∈ (dolog false sample_chrono_format streams_good key_order
              (list string) sample_vformat sample_logger 5 Error "net" None
              sample_location "retry {}" ["3"]).1).
Proof.
  split.
  - exact (proj1 (dolog_after_removeSink false sample_chrono_format
                    streams_good key_order sample_vformat sample_logger
                    "trace" 5 Error "net" None sample_location "retry {}"
                    ["3"] "trace"
                    (setDefaultLogLevel (makeFileSink "trace.log") Noise)
                    (mkEntryMetadata Error "net" None sample_location 5)
                    "retry 3")).
  - refine (proj2 (dolog_after_removeSink false sample_chrono_format
                     streams_good key_order sample_vformat sample_logger
                     "trace" 5 Error "net" None sample_location "retry {}"
                     ["3"] "console" makeConsoleSink
                     (mkEntryMetadata Error "net" None sample_location 5)
                     "retry 3") _).
    intros n s Hn _.
    change (sinks sample_logger)
      with (<["trace" := setDefaultLogLevel (makeFileSink "trace.log") Noise]>
              (<["console" := makeConsoleSink]> (∅ : gmap string Sink)))
      in Hn.
    apply lookup_insert_Some in Hn as [[_ <-] | [_ Hn]];
      [vm_compute; reflexivity |].
    apply lookup_insert_Some in Hn as [[_ <-] | [_ Hn]];
      [vm_compute; reflexivity |].
    rewrite lookup_empty in Hn. discriminate Hn.
Defined.

Lemma dolog_after_addSink_witness :
  EvSinkLog (list string) "trace"
    (setDefaultLogLevel (makeFileSink "trace.log") Noise)
    (mkEntryMetadata Debug "net" None sample_location 5) "retry 3"
  ∈ (dolog false sample_chrono_format streams_good key_order (list string)
       sample_vformat sample_logger 5 Debug "net" None sample_location
       "retry {}" ["3"]).1.
Proof.
  apply (dolog_after_addSink false sample_chrono_format streams_good
           key_order sample_vformat
           (addSink Logger_new "console" makeConsoleSink) "trace"
           (setDefaultLogLevel (makeFileSink "trace.log") Noise) 5 Debug
           "net" None sample_location "retry {}" ["3"]).
  - vm_compute. reflexivity.
  - intros n s Hn.
    change (sinks (addSink Logger_new "console" makeConsoleSink))
      with (<["console" := makeConsoleSink]> (∅ : gmap string Sink)) in Hn.
    apply lookup_insert_Some in Hn as [[_ <-] | [_ Hn]].
    + intros Hacc. vm_compute in Hacc. discriminate Hacc.
    + rewrite lookup_empty in Hn. discriminate Hn.
  - intros _. vm_compute. reflexivity.
  - left. repeat split; vm_compute; reflexivity.
Defined.

(** ** Protobuf sink: the timestamp *)

(** X18: the seconds and nanoseconds that [encodeDto] stores add up to the
    entry's time point, and the nanoseconds are less than a second in
    magnitude.  They carry the sign of the time point: not negative from the
    epoch on, not positive before it (the seconds are truncated toward
    zero). *)
Theorem encodeDto_timestamp_split (meta : EntryMetadata) :
  encodeDto_seconds meta * 1000000000 + encodeDto_nanos meta
  = timestamp meta * 1000
  ∧ -1000000000 < encodeDto_nanos meta < 1000000000
  ∧ (0 ≤ timestamp meta → 0 ≤ encodeDto_nanos meta)
  ∧ (timestamp meta ≤ 0 → encodeDto_nanos meta ≤ 0).
Proof.
  unfold encodeDto_nanos, encodeDto_seconds, ticks_per_second.
  change (1000000000 / 1000000) with 1000.
  pose proof (Z.quot_rem' (timestamp meta) 1000000) as Hqr.
  assert (Z.abs (Z.rem (timestamp meta) 1000000) < 1000000) as Habs.
  { pose proof (Z.rem_bound_abs (timestamp meta) 1000000). lia. }
  pose proof (Z.rem_nonneg (timestamp meta) 1000000) as Hpos.
  pose proof (Z.rem_nonpos (timestamp meta) 1000000) as Hneg.
  repeat split; lia.
Qed.

(** ** Deferred sink: invariants of every schedule *)

Section DeferredInvariants.

Import Deferred.

(** X19: the entry queued by [log] is a faithful detached copy: the
    metadata the worker rebuilds from it and the message it carries are the
    ones [log] was called with. *)
Theorem deferred_entry_round_trip (meta : EntryMetadata) (msg : string) :
  entry_meta (make_entry meta msg) = meta
  ∧ dle_message (make_entry meta msg) = msg.
Proof. by destruct meta as [lvl dom [inst |] loc ts]. Qed.


Lemma shutdown_order_init (calls : list (EntryMetadata * string)) :
  shutdown_order (init calls).
Proof. by repeat split. Qed.

Lemma shutdown_order_step (c : choice) (st st' : state) :
  shutdown_order st → step c st = Some st' → shutdown_order st'.
Proof.
  destruct st as [stop m q w o td ul].
  unfold shutdown_order, step, worker_step, owner_step, lock, unlock,
    notify_one, set_opc, set_wpc, set_mtx, set_queue.
  cbn. intros (Hstop & Htodo & Hexit & Hjoin) Hstep.
  destruct c as [[|] |].
  - destruct o; cbn in *;
      repeat match goal with
             | H : context [match td with _ => _ end] |- _ =>
                 destruct td as [| [? ?] ?]; cbn in H
             | H : context [match m with _ => _ end] |- _ =>
                 destruct m; cbn in H
             | H : context [match w with _ => _ end] |- _ =>
                 destruct w; cbn in H
             end;
      try discriminate Hstep;
      injection Hstep as <-; cbn;
      repeat split; try done; try (intros ?; by auto);
      try (destruct w; cbn; by auto).
  - destruct w; cbn in *;
      repeat match goal with
             | H : context [match m with _ => _ end] |- _ =>
                 destruct m; cbn in H
             | H : context [if ?b then _ else _] |- _ =>
                 destruct b eqn:?; cbn in H
             | H : context [match q with _ => _ end] |- _ =>
                 destruct q; cbn in H
             end;
      try discriminate Hstep;
      injection Hstep as <-; cbn;
      repeat split; try done; try (intros ?; by auto);
      intros Ho; specialize (Hjoin Ho); discriminate Hjoin.
  - destruct w; try discriminate Hstep. injection Hstep as <-. cbn.
    repeat split; try done.
    intros Ho. specialize (Hjoin Ho). discriminate Hjoin.
Qed.

Lemma shutdown_order_run (sched : list choice) (st st' : state) :
  shutdown_order st → run sched st = Some st' → shutdown_order st'.
Proof.
  revert st. induction sched as [| c sched IH]; intros st Hinv Hrun.
  - cbn in Hrun. by injection Hrun as <-.
  - cbn in Hrun. destruct (step c st) as [st1 |] eqn:Hstep; [| done].
    cbn in Hrun. apply (IH st1); [| done]. by eapply shutdown_order_step.
Qed.

(** X20: in every schedule the wrapped sink receives a prefix of the
    owner's calls (their order kept, none twice, none made up), and when the
    destructor has returned the calls it has not received are exactly the
    entries left in the queue, in order. *)
Theorem deferred_accounting (calls : list (EntryMetadata * string))
    (sched : list choice) (st : state) :
  run sched (init calls) = Some st →
  (∃ missing, calls = underlying_log st ++ missing)
  ∧ (destroyed st → calls = underlying_log st ++ (call_of <$> queue st)).
Proof.
  intros Hrun.
  destruct (accounted_run calls sched (init calls) st (accounted_init calls)
              Hrun) as [Hcalls _].
  split; [by eexists |].
  intros Hdone.
  destruct (shutdown_order_run sched (init calls) st
              (shutdown_order_init calls) Hrun)
    as (_ & Htodo & _ & Hjoin).
  unfold destroyed in Hdone. specialize (Hjoin Hdone).
  rewrite Hdone in Htodo. specialize (Htodo eq_refl).
  rewrite Hcalls. unfold pending, in_flight.
  by rewrite Hjoin, Hdone, Htodo, app_nil_r.
Qed.

(** X21: the order of a shutdown, in every schedule: [stop_requested] is
    set exactly while the owner is in the destructor, which it enters after
    its last call of [log]; the worker thread leaves only once the stop is
    requested; and the destructor returns only after the worker has left. *)
Theorem deferred_shutdown_order (calls : list (EntryMetadata * string))
    (sched : list choice) (st : state) :
  run sched (init calls) = Some st →
  stop_requested st = in_destructor (opc st)
  ∧ (wpc st = W_exited → in_destructor (opc st) = true ∧ todo st = [])
  ∧ (destroyed st → wpc st = W_exited).
Proof.
  intros Hrun.
  destruct (shutdown_order_run sched (init calls) st
              (shutdown_order_init calls) Hrun)
    as (Hstop & Htodo & Hexit & Hjoin).
  split; [done |]. split; [| done].
  intros Hw. specialize (Hexit Hw). rewrite Hstop in Hexit. auto.
Qed.

End DeferredInvariants.

Lemma deferred_accounting_witness :
  (∃ missing,
     [sample_call] = Deferred.underlying_log sample_dropped_state ++ missing)
  ∧ (Deferred.destroyed sample_dropped_state →
     [sample_call]
     = Deferred.underlying_log sample_dropped_state
       ++ (call_of <$> Deferred.queue sample_dropped_state)).
Proof.
  apply (deferred_accounting [sample_call] (early_destroy_schedule 1)
           sample_dropped_state).
  vm_compute. reflexivity.
Defined.

Lemma deferred_shutdown_order_witness :
  Deferred.stop_requested sample_dropped_state
  = in_destructor (Deferred.opc sample_dropped_state)
  ∧ (Deferred.wpc sample_dropped_state = Deferred.W_exited →
     in_destructor (Deferred.opc sample_dropped_state) = true
     ∧ Deferred.todo sample_dropped_state = [])
  ∧ (Deferred.destroyed sample_dropped_state →
     Deferred.wpc sample_dropped_state = Deferred.W_exited).
Proof.
  apply (deferred_shutdown_order [sample_call] (early_destroy_schedule 1)
           sample_dropped_state).
  vm_compute. reflexivity.
Defined.

(** ** Deferred sink: the mutex *)

Section DeferredMutex.

Import Deferred.

Lemma lock_invariant_init (calls : list (EntryMetadata * string)) :
  lock_invariant (init calls).
Proof. by split. Qed.

Lemma lock_invariant_step (c : choice) (st st' : state) :
  lock_invariant st → step c st = Some st' → lock_invariant st'.
Proof.
  destruct st as [stop m q w o td ul].
  unfold lock_invariant, lock_discipline, step, worker_step, owner_step,
    lock, unlock, notify_one, set_opc, set_wpc, set_mtx, set_queue.
  cbn. intros [Hm Hex] Hstep.
  destruct c as [[|] |].
  - destruct o; cbn in *;
      repeat match goal with
             | H : context [match td with _ => _ end] |- _ =>
                 destruct td as [| [? ?] ?]; cbn in H
             | H : context [match m with _ => _ end] |- _ =>
                 destruct m; cbn in H
             end;
      try discriminate Hstep;
      destruct w; cbn in *;
      try discriminate Hstep; try discriminate Hm; try discriminate Hex;
      injection Hstep as <-; cbn; try done.
  - destruct w; cbn in *;
      repeat match goal with
             | H : context [match m with _ => _ end] |- _ =>
                 destruct m; cbn in H
             | H : context [if ?b then _ else _] |- _ =>
                 destruct b eqn:?; cbn in H
             | H : context [match q with _ => _ end] |- _ =>
                 destruct q; cbn in H
             end;
      try discriminate Hstep;
      destruct o; cbn in *;
      try discriminate Hm; try discriminate Hex;
      injection Hstep as <-; cbn; try done.
  - destruct w; try discriminate Hstep. injection Hstep as <-. by cbn.
Qed.

Lemma lock_invariant_run (sched : list choice) (st st' : state) :
  lock_invariant st → run sched st = Some st' → lock_invariant st'.
Proof.
  revert st. induction sched as [| c sched IH]; intros st Hinv Hrun.
  - cbn in Hrun. by injection Hrun as <-.
  - cbn in Hrun. destruct (step c st) as [st1 |] eqn:Hstep; [| done].
    cbn in Hrun. apply (IH st1); [| done]. by eapply lock_invariant_step.
Qed.

(** X22: the mutex is held by the thread whose position says so, never by
    both; the worker does not hold it while it is inside the wrapped sink's
    [log] or asleep, so an owner standing between two calls can then always
    make its next step: a call of [log] on the deferred sink does not wait
    for the wrapped sink's delivery. *)
Theorem deferred_log_not_blocked_by_delivery
    (calls : list (EntryMetadata * string)) (sched : list choice)
    (st : state) :
  run sched (init calls) = Some st →
  lock_discipline st
  ∧ worker_holds_lock (wpc st) && owner_holds_lock (opc st) = false
  ∧ (worker_holds_lock (wpc st) = false → opc st = O_next →
     is_Some (step (Run Owner) st)).
Proof.
  intros Hrun.
  destruct (lock_invariant_run sched (init calls) st
              (lock_invariant_init calls) Hrun) as [Hm Hex].
  split; [done |]. split; [done |].
  intros Hw Ho. unfold lock_discipline in Hm. rewrite Hw, Ho in Hm.
  cbn in Hm. unfold step, owner_step, lock. rewrite Ho, Hm.
  destruct (todo st) as [| [meta msg] rest]; by eexists.
Qed.

End DeferredMutex.

Lemma deferred_log_not_blocked_by_delivery_witness :
  Deferred.run delivering_schedule
    (Deferred.init [sample_call; (sample_meta Warning, "disk low")])
  = Some sample_delivering_state
  ∧ Deferred.wpc sample_delivering_state = Deferred.W_deliver
  ∧ lock_discipline sample_delivering_state
  ∧ is_Some (Deferred.step (Deferred.Run Deferred.Owner)
               sample_delivering_state).
Proof.
  assert (Deferred.run delivering_schedule
            (Deferred.init [sample_call; (sample_meta Warning, "disk low")])
          = Some sample_delivering_state) as Hrun
    by (vm_compute; reflexivity).
  destruct (deferred_log_not_blocked_by_delivery
              [sample_call; (sample_meta Warning, "disk low")]
              delivering_schedule sample_delivering_state Hrun)
    as (Hlock & _ & Hstep).
  split; [exact Hrun |]. split; [reflexivity |]. split; [exact Hlock |].
  apply Hstep; reflexivity.
Defined.

(** ** Deferred sink: two more schedules *)

Section DeferredSchedules.

Import Deferred.





(** X24: the destructor can wait for ever.  When the worker has just found
    the queue empty and no stop requested, and the owner then runs the
    destructor (which sets [stop_requested] and notifies without taking the
    mutex), the notification finds no sleeper; the worker goes to sleep, the
    owner waits in [join], and neither thread has a step left. *)
Theorem deferred_destructor_can_hang (st : state) :
  wpc st = W_wait_block →
  opc st = O_next →
  todo st = [] →
  ∃ st',
    run [Run Owner; Run Owner; Run Worker] st = Some st'
    ∧ stop_requested st' = true
    ∧ opc st' = O_join
    ∧ wpc st' = W_sleeping
    ∧ step (Run Owner) st' = None
    ∧ step (Run Worker) st' = None.
Proof.
  destruct st as [stop m q w o td ul]. cbn. intros -> -> ->.
  eexists. split; [reflexivity |]. by cbn.
Qed.

End DeferredSchedules.

Lemma deferred_destructor_can_hang_witness :
  ∃ st',
    Deferred.run lost_wakeup_schedule (Deferred.init []) = Some st'
    ∧ Deferred.stop_requested st' = true
    ∧ Deferred.opc st' = Deferred.O_join
    ∧ Deferred.wpc st' = Deferred.W_sleeping
    ∧ Deferred.step (Deferred.Run Deferred.Owner) st' = None
    ∧ Deferred.step (Deferred.Run Deferred.Worker) st' = None.
Proof.
  apply (deferred_destructor_can_hang
           (Deferred.mkState false (Some Deferred.Worker) []
              Deferred.W_wait_block Deferred.O_next [] []));
    reflexivity.
Defined.

(** ** Thresholds *)

(** X25: a less severe threshold accepts everything a more severe one
    accepts, for the default threshold and for a domain's override alike. *)
Theorem threshold_monotone (s : Sink) (d : string) (l1 l2 : LogLevel)
    (entry : EntryMetadata) :
  LogLevel_rank l1 ≤ LogLevel_rank l2 →
  (checkFilter (setDefaultLogLevel s l1) entry = true →
   checkFilter (setDefaultLogLevel s l2) entry = true)
  ∧ (checkFilter (setDomainLogLevel s d l1) entry = true →
     checkFilter (setDomainLogLevel s d l2) entry = true).
Proof.
  intros Hle.
  rewrite !checkFilter_effective, !effective_filter_setDefaultLogLevel,
    !effective_filter_setDomainLogLevel, !Filter_checkFilter_lookup.
  cbn. split.
  - destruct (domains (effective_filter s) !! domain entry); cbn; [done |].
    rewrite !LogLevel_le_spec. lia.
  - destruct (decide (d = domain entry)) as [-> | Hne].
    + rewrite !lookup_insert_eq. cbn. rewrite !LogLevel_le_spec. lia.
    + by rewrite !lookup_insert_ne.
Qed.

Lemma threshold_monotone_witness :
  (checkFilter (setDefaultLogLevel makeConsoleSink Warning)
     (sample_meta Error) = true →
   checkFilter (setDefaultLogLevel makeConsoleSink Debug)
     (sample_meta Error) = true)
  ∧ (checkFilter (setDomainLogLevel makeConsoleSink "net" Warning)
       (sample_meta Error) = true →
     checkFilter (setDomainLogLevel makeConsoleSink "net" Debug)
       (sample_meta Error) = true).
Proof.
  apply (threshold_monotone makeConsoleSink "net" Warning Debug
           (sample_meta Error)).
  vm_compute. intros Hgt. discriminate Hgt.
Defined.

(** ** Format renderer: plain text before a final ['%'] *)

Lemma find_char_from_split (ch : ascii) (pre rest : string) (idx : Z) :
  has_char ch pre = false →
  find_char_from ch (pre +:+ String ch rest) idx
  = idx + Z.of_nat (String.length pre).
Proof.
  revert idx. induction pre as [| c pre IH]; intros idx Hpre.
  - change (find_char_from ch (String ch rest) idx = idx + 0).
    cbn [find_char_from]. rewrite Ascii.eqb_refl. lia.
  - change (Ascii.eqb c ch || has_char ch pre = false) in Hpre.
    apply orb_false_elim in Hpre as [Hc Hpre].
    change ((if Ascii.eqb c ch then idx
             else find_char_from ch (pre +:+ String ch rest) (idx + 1))
            = idx + Z.of_nat (S (String.length pre))).
    rewrite Hc, IH by done. lia.
Qed.

Lemma substring_prefix (pre rest : string) :
  String.substring 0 (String.length pre) (pre +:+ rest) = pre.
Proof.
  induction pre as [| c pre IH]; [by destruct rest |].
  change (String c (String.substring 0 (String.length pre) (pre +:+ rest))
          = String c pre).
  by rewrite IH.
Qed.

Lemma get_after_prefix (pre rest : string) (c : ascii) :
  String.get (String.length pre) (pre +:+ String c rest) = Some c.
Proof.
  induction pre as [| c' pre IH]; [done |].
  change (String.get (String.length pre) (pre +:+ String c rest) = Some c).
  exact IH.
Qed.

Section RendererTrailingPercent.

Context (msvc : bool) (chrono_format : ascii → LogEntryTimestamp → string).

Local Abbreviation body := (formatEntry_body msvc chrono_format).
Local Abbreviation loop := (formatEntry_loop msvc chrono_format).

(** X26: for every template made of text without ['%'] followed by one
    ['%'], [formatEntry] does not return: the text is copied, then the scan
    stays at the ['%']. *)
Theorem formatEntry_text_then_percent_never_returns
    (f : FormattedStringSink) (meta : EntryMetadata) (msg pre : string) :
  getFormatString f (level meta) = pre +:+ "%" →
  has_char "%" pre = false →
  sv_size (pre +:+ "%") < size_t_modulus →
  formatEntry_diverges msvc chrono_format f meta msg.
Proof.
  intros Hfmt Hpre Hsize fuel. rewrite Hfmt.
  assert (sv_size (pre +:+ "%") = Z.of_nat (String.length pre) + 1) as Hlen.
  { unfold sv_size. rewrite string_length_append. cbn [String.length]. lia. }
  assert (∀ out n,
    loop n (pre +:+ "%") meta msg
      {| scan_s := Z.of_nat (String.length pre); scan_out := out |} = None)
    as Hstay.
  { intros out n. apply formatEntry_loop_fixed_point; [cbn [scan_s]; lia |].
    apply formatEntry_body_last_percent; cbn [scan_s].
    - unfold sv_at. rewrite (proj2 (Z.ltb_ge _ _)) by lia.
      by rewrite Nat2Z.id, get_after_prefix.
    - rewrite size_t_sub_small by lia. lia. }
  destruct pre as [| c pre'] eqn:Hp; [apply (Hstay "" fuel) |].
  rewrite <- Hp in *.
  destruct fuel as [| fuel].
  { cbn. by rewrite (proj2 (Z.ltb_lt _ _)) by lia. }
  rewrite formatEntry_loop_unfold by (cbn [scan_s]; lia).
  assert (body (pre +:+ "%") meta msg {| scan_s := 0; scan_out := "" |}
          = {| scan_s := Z.of_nat (String.length pre); scan_out := pre |})
    as ->; [| apply Hstay].
  unfold formatEntry_body. cbn [scan_s scan_out].
  assert (Ascii.eqb (sv_at (pre +:+ "%") 0) "%" = false) as ->.
  { rewrite Hp in Hpre |- *.
    change (Ascii.eqb c "%" || has_char "%" pre' = false) in Hpre.
    change (sv_at (String c pre' +:+ "%") 0) with c.
    by apply orb_false_elim in Hpre as [-> _]. }
  cbn [negb].
  assert (sv_find (pre +:+ "%") "%" 0 = Z.of_nat (String.length pre)) as ->.
  { unfold sv_find. rewrite (proj2 (Z.ltb_lt _ _)) by lia.
    change (string_drop (Z.to_nat 0) (pre +:+ "%")) with (pre +:+ "%").
    rewrite find_char_from_split by done. lia. }
  rewrite (proj2 (Z.eqb_neq _ _)) by (unfold npos; lia).
  rewrite size_t_sub_small, size_t_add_small by lia.
  f_equal; [lia |].
  unfold sv_substr. rewrite Hlen, Z.min_l by lia.
  rewrite Z.sub_0_r, Nat2Z.id. apply substring_prefix.
Qed.

End RendererTrailingPercent.

Lemma formatEntry_text_then_percent_never_returns_witness :
  formatEntry true sample_chrono_format
    (setFormat FormattedStringSink_new "progress 100%") (sample_meta Info)
    "x"
  = None.
Proof.
  refine (formatEntry_text_then_percent_never_returns true
            sample_chrono_format
            (setFormat FormattedStringSink_new "progress 100%")
            (sample_meta Info) "x" "progress 100" _ _ _ 14%nat);
    vm_compute; reflexivity.
Defined.
